(** * safety: the fake flintlock microVM server

    A shallow embedding of [safety.go]: the in-memory record store
    ([CreateMicroVM], [DeleteMicroVM], [GetMicroVM], [ListMicroVMs],
    [Load]) and the basic-auth gate ([WithOpts], [basicAuthFunc],
    [validateBasicAuthToken]).

    Go values are modelled as follows.
    - A Go [string] is a [string] (a sequence of 8-bit characters).
    - A [*types.MicroVMSpec] is an address [loc] into a heap of spec
      messages; two slots of [savedSpecs] holding the same address are
      the same message, and a write through one is seen through the other.
      Every element of [savedSpecs] is the address of a message: the
      handlers store none that is nil, and [Load] is given messages.
    - An optional protobuf field ([*string], or the [Microvm] message of a
      create request) is an [option]; reading through an absent one is the
      run-time panic of a nil dereference.
    - A handler is a function from the world (heap, server, console) to
      either a returned value with the new world, or a panic. *)

From Stdlib Require Import ZArith NArith Ascii String.
From stdpp Require Import base list strings.

Local Open Scope string_scope.
Local Open Scope list_scope.

(** ** Errors *)

(** grpc's [codes.Code]; [codes.Unauthenticated] is 16 in grpc-go. *)
Definition Code := N.
Definition codes_Unauthenticated : Code := 16%N.

(** Go [error] values, kept as the calls that build them.  [foreign] is an
    error made by an imported package ([uuid.NewV4], [grpc_auth.AuthFromMD]). *)
Inductive error : Type :=
| errors_New (text : string)
| fmt_Errorf (format : string) (arg : error)
| status_Errorf (c : Code) (format : string) (arg : error)
| foreign (text : string).

(** ** Messages of the flintlock API that the server reads or builds *)

Definition loc := nat.

Module MicroVMSpec.
(** [Id], [Namespace] and [Uid] are the fields the server looks at;
    [Rest] stands for every other field of the message. *)
Record t (Payload : Type) : Type := mk
  { Id : string; Namespace : string; Uid : option string; Rest : Payload }.
Arguments mk {Payload}.
Arguments Id {Payload}.
Arguments Namespace {Payload}.
Arguments Uid {Payload}.
Arguments Rest {Payload}.

(** [spec.Uid = pointer.String(u)] *)
Definition set_Uid {Payload} (spec : t Payload) (u : string) : t Payload :=
  {| Id := Id spec; Namespace := Namespace spec; Uid := Some u; Rest := Rest spec |}.
End MicroVMSpec.

Module MicroVMStatus.
(** The state enumeration is a protobuf [int32]; the zero value of the
    message has [State = 0]. *)
Record t : Type := mk { State : Z }.
Definition zero : t := {| State := 0 |}.
End MicroVMStatus.

(** [types.MicroVMStatus_CREATED] *)
Definition MicroVMStatus_CREATED : Z := 1.

Module MicroVM.
Record t : Type := mk { Version : Z; Spec : loc; Status : MicroVMStatus.t }.
End MicroVM.

Module CreateMicroVMRequest.
Record t : Type := mk { Microvm : option loc }.
End CreateMicroVMRequest.

Module CreateMicroVMResponse.
Record t : Type := mk { Microvm : MicroVM.t }.
End CreateMicroVMResponse.

Module DeleteMicroVMRequest.
Record t : Type := mk { Uid : string }.
End DeleteMicroVMRequest.

Module GetMicroVMRequest.
Record t : Type := mk { Uid : string }.
End GetMicroVMRequest.

Module GetMicroVMResponse.
Record t : Type := mk { Microvm : MicroVM.t }.
End GetMicroVMResponse.

Module ListMicroVMsRequest.
Record t : Type := mk { Name : option string; Namespace : string }.
End ListMicroVMsRequest.

Module ListMicroVMsResponse.
Record t : Type := mk { Microvm : list MicroVM.t }.
End ListMicroVMsResponse.

(** [emptypb.Empty] *)
Inductive Empty : Type := emptypb_Empty.

(** ** The server and the world it runs in *)

(** The [cleanup] field belongs to [Start] and [Stop]; no handler reads it. *)
Record FakeServer : Type := { savedSpecs : list loc }.

(** [New] *)
Definition New : FakeServer := {| savedSpecs := [] |}.

Inductive panic : Type :=
| nil_pointer_dereference
| index_out_of_range.

Section Model.
Context {Payload : Type}.

Record world : Type := mkWorld
  { heap : loc -> MicroVMSpec.t Payload;
    server : FakeServer;
    stdout : list string }.

Inductive outcome (A : Type) : Type :=
| Done (a : A) (w : world)
| Panicked (p : panic).
Arguments Done {A}.
Arguments Panicked {A}.

Definition Go (A : Type) : Type := world -> outcome A.

Definition ret {A} (a : A) : Go A := fun w => Done a w.

Definition bind {A B} (c : Go A) (k : A -> Go B) : Go B :=
  fun w => match c w with
           | Done a w' => k a w'
           | Panicked p => Panicked p
           end.

Definition throw {A} (p : panic) : Go A := fun _ => Panicked p.

(** [*p] for an optional scalar *)
Definition deref {A} (p : option A) : Go A :=
  match p with
  | Some a => ret a
  | None => throw nil_pointer_dereference
  end.

(** [a[i]] on a slice *)
Definition index {A} (a : list A) (i : nat) : Go A :=
  match a !! i with
  | Some x => ret x
  | None => throw index_out_of_range
  end.

(** reading the message a pointer refers to *)
Definition read (spec : loc) : Go (MicroVMSpec.t Payload) :=
  fun w => Done (heap w spec) w.

(** the heap after a write of the [Uid] field of the message at [spec] *)
Definition heap_with_Uid (h : loc -> MicroVMSpec.t Payload) (spec : loc) (u : string)
  : loc -> MicroVMSpec.t Payload :=
  fun l => if decide (l = spec) then MicroVMSpec.set_Uid (h l) u else h l.

(** [spec.Uid = pointer.String(u)] *)
Definition write_Uid (spec : loc) (u : string) : Go unit :=
  fun w => Done tt
    {| heap := heap_with_Uid (heap w) spec u;
       server := server w;
       stdout := stdout w |}.

Definition get_savedSpecs : Go (list loc) :=
  fun w => Done (savedSpecs (server w)) w.

Definition set_savedSpecs (specs : list loc) : Go unit :=
  fun w => Done tt
    {| heap := heap w; server := {| savedSpecs := specs |}; stdout := stdout w |}.

(** [fmt.Println(line)] *)
Definition Println (line : string) : Go unit :=
  fun w => Done tt
    {| heap := heap w; server := server w; stdout := stdout w ++ [line] |}.
End Model.

Arguments world : clear implicits.
Arguments outcome : clear implicits.
Arguments Go : clear implicits.
Arguments Done {Payload A}.
Arguments Panicked {Payload A}.

Notation "x <- c ;; k" := (bind c (fun x => k))
  (at level 100, c at next level, right associativity).
Notation "c ;;; k" := (bind c (fun _ => k))
  (at level 100, right associativity).

Section Store.
Context {Payload : Type}.
Local Abbreviation Go := (Go Payload).

(** Load will overwrite the microvm array. *)
Definition Load (microvms : list loc) : Go unit :=
  set_savedSpecs microvms.

(** [uuid.NewV4()] followed by [uid.String()]: the generator either
    fails or yields the text of a fresh identifier.  Its result [NewV4]
    is an input of the handler. *)
Definition CreateMicroVM (NewV4 : string + error) (req : CreateMicroVMRequest.t)
  : Go (CreateMicroVMResponse.t + error) :=
  let spec := CreateMicroVMRequest.Microvm req in
  match NewV4 with
  | inr err => ret (inr err)
  | inl uid =>
      spec <- deref spec ;;
      write_Uid spec uid ;;;
      specs <- get_savedSpecs ;;
      set_savedSpecs (specs ++ [spec]) ;;;
      m <- read spec ;;
      Println ("microvm created: " +:+ MicroVMSpec.Id m) ;;;
      ret (inl {| CreateMicroVMResponse.Microvm :=
                    {| MicroVM.Version := 0;
                       MicroVM.Spec := spec;
                       MicroVM.Status := MicroVMStatus.zero |} |})
  end.

(** The body of [for i, spec := range s.savedSpecs] in [DeleteMicroVM],
    run for the indices [idx].  The range clause fixes the number of
    iterations when the loop starts and reads element [i] from the
    backing array when iteration [i] starts; the assignment in the body
    writes into that same array, at the index that was just read. *)
Fixpoint DeleteMicroVM_range (uid : string) (idx : list nat) : Go unit :=
  match idx with
  | [] => ret tt
  | i :: idx' =>
      specs <- get_savedSpecs ;;
      spec <- index specs i ;;
      m <- read spec ;;
      u <- deref (MicroVMSpec.Uid m) ;;
      (if String.eqb u uid
       then
         specs <- get_savedSpecs ;;
         last <- index specs (length specs - 1) ;;
         set_savedSpecs (<[i := last]> specs) ;;;
         Println ("microvm deleted: " +:+ MicroVMSpec.Id m)
       else ret tt) ;;;
      DeleteMicroVM_range uid idx'
  end.

Definition DeleteMicroVM (req : DeleteMicroVMRequest.t) : Go (Empty + error) :=
  specs <- get_savedSpecs ;;
  (if (0 <? length specs)%nat
   then
     DeleteMicroVM_range (DeleteMicroVMRequest.Uid req) (seq 0 (length specs)) ;;;
     specs <- get_savedSpecs ;;
     set_savedSpecs (take (length specs - 1) specs)
   else ret tt) ;;;
  ret (inl emptypb_Empty).

(** The loop of [GetMicroVM]: it does not stop at the first match. *)
Fixpoint GetMicroVM_range (uid : string) (specs : list loc)
    (requestSpec : option loc) : Go (option loc) :=
  match specs with
  | [] => ret requestSpec
  | spec :: specs' =>
      m <- read spec ;;
      u <- deref (MicroVMSpec.Uid m) ;;
      GetMicroVM_range uid specs'
        (if String.eqb u uid then Some spec else requestSpec)
  end.

Definition GetMicroVM (req : GetMicroVMRequest.t) : Go (GetMicroVMResponse.t + error) :=
  specs <- get_savedSpecs ;;
  requestSpec <- GetMicroVM_range (GetMicroVMRequest.Uid req) specs None ;;
  match requestSpec with
  | None => ret (inr (errors_New "rpc error: microvm not found"))
  | Some spec =>
      m <- read spec ;;
      Println ("microvm found: " +:+ MicroVMSpec.Id m) ;;;
      ret (inl {| GetMicroVMResponse.Microvm :=
                    {| MicroVM.Version := 0;
                       MicroVM.Spec := spec;
                       MicroVM.Status := {| MicroVMStatus.State := MicroVMStatus_CREATED |} |} |})
  end.

(** [a && b], where [b] is evaluated only when [a] is true *)
Definition and_then (a : bool) (b : Go bool) : Go bool :=
  if a then b else ret false.

Definition shouldReturn (spec : loc) (name : option string) (namespace : string) : Go bool :=
  m <- read spec ;;
  c <- and_then (String.eqb (MicroVMSpec.Namespace m) namespace)
         (n <- deref name ;; ret (String.eqb (MicroVMSpec.Id m) n)) ;;
  if c then ret true
  else
    c <- and_then (String.eqb (MicroVMSpec.Namespace m) namespace)
           (n <- deref name ;; ret (String.eqb n "")) ;;
    if c then ret true
    else ret (String.eqb namespace "").

Fixpoint ListMicroVMs_range (req : ListMicroVMsRequest.t) (specs : list loc)
    (microvms : list MicroVM.t) : Go (list MicroVM.t) :=
  match specs with
  | [] => ret microvms
  | spec :: specs' =>
      b <- shouldReturn spec (ListMicroVMsRequest.Name req)
             (ListMicroVMsRequest.Namespace req) ;;
      ListMicroVMs_range req specs'
        (if b
         then microvms ++
                [ {| MicroVM.Version := 0;
                     MicroVM.Spec := spec;
                     MicroVM.Status := {| MicroVMStatus.State := MicroVMStatus_CREATED |} |} ]
         else microvms)
  end.

Definition ListMicroVMs (req : ListMicroVMsRequest.t)
  : Go (ListMicroVMsResponse.t + error) :=
  specs <- get_savedSpecs ;;
  microvms <- ListMicroVMs_range req specs [] ;;
  ret (inl {| ListMicroVMsResponse.Microvm := microvms |}).

(** [ListMicroVMsStream] returns at once and sends nothing. *)
Definition ListMicroVMsStream (req : ListMicroVMsRequest.t) : Go (option error) :=
  ret None.
End Store.

(** ** The auth gate *)

(** [base64.StdEncoding]: the alphabet of RFC 4648, padded with [=]. *)
Definition encodeStd : string :=
  "ABCDEFGHIJKLMNOPQRSTUVWXYZabcdefghijklmnopqrstuvwxyz0123456789+/".

(** [enc[val >> k & 0x3F]] *)
Definition enc (val : N) (k : N) : ascii :=
  default "="%char (String.get (N.to_nat (N.land (N.shiftr val k) 63)) encodeStd).

(** [base64.StdEncoding.EncodeToString]: three source bytes make a 24-bit
    group written as four characters; a last group of one or two bytes is
    written as two or three characters and padded to four. *)
Fixpoint EncodeToString (src : string) : string :=
  match src with
  | EmptyString => ""
  | String b0 EmptyString =>
      let val := N.shiftl (N_of_ascii b0) 16 in
      String (enc val 18) (String (enc val 12) "==")
  | String b0 (String b1 EmptyString) =>
      let val := N.lor (N.shiftl (N_of_ascii b0) 16) (N.shiftl (N_of_ascii b1) 8) in
      String (enc val 18) (String (enc val 12) (String (enc val 6) "="))
  | String b0 (String b1 (String b2 rest)) =>
      let val := N.lor (N.lor (N.shiftl (N_of_ascii b0) 16) (N.shiftl (N_of_ascii b1) 8))
                       (N_of_ascii b2) in
      String (enc val 18) (String (enc val 12) (String (enc val 6) (String (enc val 0)
        (EncodeToString rest))))
  end.

(** [strings.Compare]: the three-way bytewise comparison *)
Definition strings_Compare (a b : string) : Z :=
  match String.compare a b with
  | Eq => 0
  | Lt => -1
  | Gt => 1
  end.

(** A nil [error] is [None]. *)
Definition validateBasicAuthToken (clientToken serverToken : string) : option error :=
  let data := EncodeToString serverToken in
  if negb (strings_Compare clientToken data =? 0)%Z
  then Some (errors_New "tokens do not match")
  else None.

(** What [grpc.ServerOption]s the server is built with: a stream and a
    unary interceptor chain.  The chain builders of go-grpc-middleware run
    the interceptors they are given in order; an interceptor installed
    without a builder is a chain of one. *)
Inductive interceptor (AuthFunc : Type) : Type :=
| grpc_auth_ServerInterceptor (f : AuthFunc)
| grpc_prometheus_ServerInterceptor.
Arguments grpc_auth_ServerInterceptor {AuthFunc}.
Arguments grpc_prometheus_ServerInterceptor {AuthFunc}.

Inductive ServerOption (AuthFunc : Type) : Type :=
| grpc_StreamInterceptor (chain : list (interceptor AuthFunc))
| grpc_UnaryInterceptor (chain : list (interceptor AuthFunc)).
Arguments grpc_StreamInterceptor {AuthFunc}.
Arguments grpc_UnaryInterceptor {AuthFunc}.

Section Auth.
(** The call context, and [grpc_auth.AuthFromMD], which reads the
    credential sent under a scheme from the context's metadata or
    reports why it cannot. *)
Context {context : Type}.
Variable AuthFromMD : context -> string -> string + error.

(** [grpc_auth.AuthFunc]: the context to go on with, or the error that
    ends the call. *)
Definition AuthFunc : Type := context -> context + error.

Definition basicAuthFunc (setServerToken : string) : AuthFunc :=
  fun ctx =>
    match AuthFromMD ctx "basic" with
    | inr err =>
        inr (fmt_Errorf "could not extract token from request header: %w" err)
    | inl token =>
        match validateBasicAuthToken token setServerToken with
        | Some err =>
            inr (status_Errorf codes_Unauthenticated "invalid auth token: %v" err)
        | None => inl ctx
        end
    end.

Definition WithOpts (authToken : string) : list (ServerOption AuthFunc) :=
  if negb (String.eqb authToken "")
  then
    [ grpc_StreamInterceptor [ grpc_auth_ServerInterceptor (basicAuthFunc authToken) ];
      grpc_UnaryInterceptor [ grpc_auth_ServerInterceptor (basicAuthFunc authToken) ] ]
  else
    [ grpc_StreamInterceptor [ grpc_prometheus_ServerInterceptor ];
      grpc_UnaryInterceptor [ grpc_prometheus_ServerInterceptor ] ].
End Auth.

(** ** Words used to state what the handlers do *)

Section Reading.
Context {Payload : Type}.
Implicit Types (h : loc -> MicroVMSpec.t Payload) (l spec : loc) (u uid : string).

(** the record at [l] carries a uid *)
Definition has_uid h l : bool :=
  match MicroVMSpec.Uid (h l) with Some _ => true | None => false end.

(** the record at [l] carries the uid [uid] *)
Definition uid_matches h uid l : bool :=
  match MicroVMSpec.Uid (h l) with Some u => String.eqb u uid | None => false end.

(** a record as the read paths present it *)
Definition created spec : MicroVM.t :=
  {| MicroVM.Version := 0;
     MicroVM.Spec := spec;
     MicroVM.Status := {| MicroVMStatus.State := MicroVMStatus_CREATED |} |}.

(** the world after a create that went through *)
Definition world_created (w : world Payload) spec uid : world Payload :=
  {| heap := heap_with_Uid (heap w) spec uid;
     server := {| savedSpecs := savedSpecs (server w) ++ [spec] |};
     stdout := stdout w ++ ["microvm created: " +:+ MicroVMSpec.Id (heap w spec)] |}.

(** what the loop of [DeleteMicroVM] leaves in a slot that held [l],
    when [z] is the last element *)
Definition overwritten h uid (z l : loc) : loc :=
  if uid_matches h uid l then z else l.

(** the lines the loop of [DeleteMicroVM] prints *)
Definition deleted_lines h uid (specs : list loc) : list string :=
  map (fun l => "microvm deleted: " +:+ MicroVMSpec.Id (h l))
      (List.filter (uid_matches h uid) specs).

(** the last record with the uid, as the loop of [GetMicroVM] finds it *)
Definition last_match h uid (specs : list loc) (requestSpec : option loc) : option loc :=
  fold_left (fun acc l => if uid_matches h uid l then Some l else acc) specs requestSpec.

(** the filter of [ListMicroVMs] when the request has a name *)
Definition selected h (n namespace : string) l : bool :=
  (String.eqb (MicroVMSpec.Namespace (h l)) namespace
     && (String.eqb (MicroVMSpec.Id (h l)) n || String.eqb n ""))
  || String.eqb namespace "".
End Reading.

(** ** Calls as they reach the server

    The generated service glue hands every incoming call to the handler of
    its name; a run of the server is the calls served one after the other.
    A call that panics ends the run. *)

Inductive call : Type :=
| call_CreateMicroVM (NewV4 : string + error) (req : CreateMicroVMRequest.t)
| call_DeleteMicroVM (req : DeleteMicroVMRequest.t)
| call_GetMicroVM (req : GetMicroVMRequest.t)
| call_ListMicroVMs (req : ListMicroVMsRequest.t).

Section Serving.
Context {Payload : Type}.

Definition handle (c : call) : Go Payload unit :=
  match c with
  | call_CreateMicroVM NewV4 req => CreateMicroVM NewV4 req ;;; ret tt
  | call_DeleteMicroVM req => DeleteMicroVM req ;;; ret tt
  | call_GetMicroVM req => GetMicroVM req ;;; ret tt
  | call_ListMicroVMs req => ListMicroVMs req ;;; ret tt
  end.

Fixpoint serve (calls : list call) : Go Payload unit :=
  match calls with
  | [] => ret tt
  | c :: calls' => handle c ;;; serve calls'
  end.
End Serving.

(** the place of a character in a string, if it has one *)
Fixpoint index_of (c : ascii) (s : string) : option nat :=
  match s with
  | EmptyString => None
  | String c' s' =>
      if Ascii.eqb c c' then Some 0
      else match index_of c s' with Some i => Some (S i) | None => None end
  end.

(** ** A small population, for the concrete runs

    Messages 0 and 2 carry the same uid, 3 has neither a uid nor a
    namespace, and every address from 4 on holds a message that has not
    been created yet. *)

Definition sample_heap : loc -> MicroVMSpec.t unit := fun l =>
  match l with
  | 0 => MicroVMSpec.mk "vm0" "ns1" (Some "uid-0") tt
  | 1 => MicroVMSpec.mk "vm1" "ns1" (Some "uid-1") tt
  | 2 => MicroVMSpec.mk "vm2" "ns2" (Some "uid-0") tt
  | 3 => MicroVMSpec.mk "vm3" "" None tt
  | _ => MicroVMSpec.mk "vm4" "ns1" None tt
  end.

Definition sample_world (specs : list loc) (out : list string) : world unit :=
  {| heap := sample_heap; server := {| savedSpecs := specs |}; stdout := out |}.

(** A stand-in for the call context in the concrete runs: the credential
    the caller sent under the scheme, if any. *)
Definition sample_AuthFromMD (ctx : option string) (expectedScheme : string)
  : string + error :=
  match ctx with
  | Some token => inl token
  | None => inr (foreign ("Request unauthenticated with " +:+ expectedScheme))
  end.

(** ** The encoder on the test vectors of RFC 4648 *)

Example EncodeToString_rfc4648 :
  map EncodeToString [""; "f"; "fo"; "foo"; "foob"; "fooba"; "foobar"]
  = [""; "Zg=="; "Zm8="; "Zm9v"; "Zm9vYg=="; "Zm9vYmE="; "Zm9vYmFy"].
Proof. reflexivity. Qed.

(** ** Properties of the record store *)

Section StoreProperties.
Context {Payload : Type}.
Implicit Types (w : world Payload) (h : loc -> MicroVMSpec.t Payload)
  (l spec z : loc) (u uid : string) (specs : list loc).

Lemma has_uid_true h l :
  has_uid h l = true <-> exists u, MicroVMSpec.Uid (h l) = Some u.
Proof.
  unfold has_uid. destruct (MicroVMSpec.Uid (h l)); split; eauto.
  - discriminate.
  - intros [u Hu]; discriminate.
Qed.

Lemma uid_matches_true h uid l :
  uid_matches h uid l = true <-> MicroVMSpec.Uid (h l) = Some uid.
Proof.
  unfold uid_matches. destruct (MicroVMSpec.Uid (h l)) as [u|].
  - rewrite String.eqb_eq. split; congruence.
  - split; discriminate.
Qed.

Lemma uid_matches_has_uid h uid l :
  uid_matches h uid l = true -> has_uid h l = true.
Proof.
  unfold uid_matches, has_uid. destruct (MicroVMSpec.Uid (h l)); auto.
Qed.

(** *** The loop of DeleteMicroVM *)


Lemma DeleteMicroVM_range_cons uid i idx h specs out l :
  specs !! i = Some l ->
  DeleteMicroVM_range uid (i :: idx)
    {| heap := h; server := {| savedSpecs := specs |}; stdout := out |}
  = match MicroVMSpec.Uid (h l) with
    | None => Panicked nil_pointer_dereference
    | Some u =>
        if String.eqb u uid
        then match specs !! (length specs - 1) with
             | Some z =>
                 DeleteMicroVM_range uid idx
                   {| heap := h; server := {| savedSpecs := <[i := z]> specs |};
                      stdout := out ++ ["microvm deleted: " +:+ MicroVMSpec.Id (h l)] |}
             | None => Panicked index_out_of_range
             end
        else DeleteMicroVM_range uid idx
               {| heap := h; server := {| savedSpecs := specs |}; stdout := out |}
    end.
Proof.
  intros Hl. cbn [DeleteMicroVM_range].
  unfold bind, get_savedSpecs, index, read, deref, ret, throw, set_savedSpecs, Println.
  simpl. rewrite Hl. simpl.
  destruct (MicroVMSpec.Uid (h l)) as [u|]; [|done].
  destruct (String.eqb u uid); [|done].
  simpl. destruct (specs !! (length specs - 1)); done.
Qed.

Lemma DeleteMicroVM_range_eq uid z k : forall i specs out h,
  length specs = i + k ->
  last specs = Some z ->
  DeleteMicroVM_range uid (seq i k)
    {| heap := h; server := {| savedSpecs := specs |}; stdout := out |}
  = if forallb (has_uid h) (drop i specs)
    then Done tt
           {| heap := h;
              server := {| savedSpecs :=
                take i specs ++ map (overwritten h uid z) (drop i specs) |};
              stdout := out ++ deleted_lines h uid (drop i specs) |}
    else Panicked nil_pointer_dereference.
Proof.
  induction k as [|k IH]; intros i specs out h Hlen Hlast.
  - rewrite drop_ge by lia. rewrite take_ge by lia. simpl.
    unfold ret, deleted_lines. simpl. by rewrite !app_nil_r.
  - destruct (lookup_lt_is_Some_2 specs i) as [l Hl]; [lia|].
    rewrite (drop_S _ _ _ Hl). cbn [seq forallb map].
    rewrite (DeleteMicroVM_range_cons _ _ _ _ _ _ _ Hl).
    assert (Hz : specs !! (length specs - 1) = Some z).
    { rewrite last_lookup in Hlast.
      by replace (length specs - 1) with (pred (length specs)) by lia. }
    unfold deleted_lines. cbn [List.filter].
    change (overwritten h uid z l) with (if uid_matches h uid l then z else l).
    destruct (MicroVMSpec.Uid (h l)) as [u|] eqn:Hu.
    2:{ unfold has_uid. by rewrite Hu. }
    assert (Hh : has_uid h l = true) by (unfold has_uid; by rewrite Hu).
    assert (Hm : uid_matches h uid l = String.eqb u uid)
      by (unfold uid_matches; by rewrite Hu).
    rewrite Hh, Hm. cbn [andb].
    destruct (String.eqb u uid) eqn:Heq.
    + rewrite Hz, IH.
      * rewrite drop_insert_lt by lia.
        destruct (forallb (has_uid h) (drop (S i) specs)); [|done].
        f_equal. f_equal.
        -- f_equal. rewrite (take_S_r _ _ z).
           ++ rewrite take_insert_ge by lia. by rewrite <- app_assoc.
           ++ apply list_lookup_insert_eq. lia.
        -- cbn [map]. by rewrite <- app_assoc.
      * rewrite length_insert. lia.
      * rewrite last_lookup, length_insert.
        destruct (decide (i = pred (length specs))) as [->|Hne].
        -- apply list_lookup_insert_eq. lia.
        -- rewrite list_lookup_insert_ne by done. by rewrite <- last_lookup.
    + rewrite IH by (done || lia).
      destruct (forallb (has_uid h) (drop (S i) specs)); [|done].
      f_equal. f_equal. f_equal.
      rewrite (take_S_r _ _ l) by done. by rewrite <- app_assoc.
Qed.

Lemma DeleteMicroVM_eq uid h specs out :
  DeleteMicroVM {| DeleteMicroVMRequest.Uid := uid |}
    {| heap := h; server := {| savedSpecs := specs |}; stdout := out |}
  = match last specs with
    | None =>
        Done (inl emptypb_Empty)
          {| heap := h; server := {| savedSpecs := specs |}; stdout := out |}
    | Some z =>
        if forallb (has_uid h) specs
        then Done (inl emptypb_Empty)
               {| heap := h;
                  server := {| savedSpecs :=
                    take (length specs - 1) (map (overwritten h uid z) specs) |};
                  stdout := out ++ deleted_lines h uid specs |}
        else Panicked nil_pointer_dereference
    end.
Proof.
  unfold DeleteMicroVM. unfold bind at 1. unfold get_savedSpecs at 1.
  cbn [server savedSpecs DeleteMicroVMRequest.Uid].
  destruct (last specs) as [z|] eqn:Hlast.
  - assert (0 < length specs) as Hpos.
    { destruct specs; [discriminate | simpl; lia]. }
    apply Nat.ltb_lt in Hpos as Hb. rewrite Hb.
    unfold bind at 1. unfold bind at 1.
    rewrite (DeleteMicroVM_range_eq uid z (length specs) 0) by done.
    rewrite drop_0, take_0.
    destruct (forallb (has_uid h) specs); [|done].
    unfold bind, get_savedSpecs, set_savedSpecs, ret. simpl.
    by rewrite length_map.
  - apply last_None in Hlast as ->. reflexivity.
Qed.

(** *** The loop of GetMicroVM *)

Lemma GetMicroVM_range_eq uid w : forall specs requestSpec,
  GetMicroVM_range uid specs requestSpec w
  = if forallb (has_uid (heap w)) specs
    then Done (last_match (heap w) uid specs requestSpec) w
    else Panicked nil_pointer_dereference.
Proof.
  induction specs as [|l specs IH]; intros requestSpec; [done|].
  cbn [GetMicroVM_range forallb]. unfold bind, read, deref. unfold has_uid at 1.
  unfold last_match. cbn [fold_left]. unfold uid_matches at 2.
  destruct (MicroVMSpec.Uid (heap w l)) as [u|]; [|done].
  unfold ret at 1. cbn [andb]. apply IH.
Qed.

Lemma last_match_None h uid specs :
  forallb (fun l => negb (uid_matches h uid l)) specs = true ->
  last_match h uid specs None = None.
Proof.
  unfold last_match. induction specs as [|l specs IH]; [done|].
  cbn [forallb fold_left]. intros [Hl Hspecs]%andb_prop.
  apply negb_true_iff in Hl. rewrite Hl. auto.
Qed.

Lemma last_match_snoc h uid specs l acc :
  uid_matches h uid l = true ->
  last_match h uid (specs ++ [l]) acc = Some l.
Proof.
  intros Hl. unfold last_match. rewrite fold_left_app. simpl. by rewrite Hl.
Qed.

(** *** The filter and the loop of ListMicroVMs *)

Lemma shouldReturn_named w spec n namespace :
  shouldReturn spec (Some n) namespace w
  = Done (selected (heap w) n namespace spec) w.
Proof.
  unfold shouldReturn, selected, bind, read, and_then, deref, ret.
  destruct (String.eqb (MicroVMSpec.Namespace (heap w spec)) namespace);
    destruct (String.eqb (MicroVMSpec.Id (heap w spec)) n);
    destruct (String.eqb n ""); destruct (String.eqb namespace ""); reflexivity.
Qed.

Lemma shouldReturn_unnamed w spec namespace :
  shouldReturn spec None namespace w
  = if String.eqb (MicroVMSpec.Namespace (heap w spec)) namespace
    then Panicked nil_pointer_dereference
    else Done (String.eqb namespace "") w.
Proof.
  unfold shouldReturn, bind, read, and_then, deref, ret, throw.
  destruct (String.eqb (MicroVMSpec.Namespace (heap w spec)) namespace);
    reflexivity.
Qed.

Lemma ListMicroVMs_range_named w n namespace : forall specs microvms,
  ListMicroVMs_range
    {| ListMicroVMsRequest.Name := Some n;
       ListMicroVMsRequest.Namespace := namespace |} specs microvms w
  = Done (microvms ++
            map created (List.filter (selected (heap w) n namespace) specs))%list w.
Proof.
  induction specs as [|l specs IH]; intros microvms.
  - simpl. unfold ret. by rewrite app_nil_r.
  - cbn [ListMicroVMs_range ListMicroVMsRequest.Name ListMicroVMsRequest.Namespace].
    unfold bind. rewrite shouldReturn_named. fold (@bind Payload).
    rewrite IH. cbn [List.filter].
    destruct (selected (heap w) n namespace l); [|done].
    cbn [map]. by rewrite <- app_assoc.
Qed.

Lemma ListMicroVMs_range_unnamed w namespace : forall specs microvms,
  ListMicroVMs_range
    {| ListMicroVMsRequest.Name := None;
       ListMicroVMsRequest.Namespace := namespace |} specs microvms w
  = if existsb (fun l => String.eqb (MicroVMSpec.Namespace (heap w l)) namespace) specs
    then Panicked nil_pointer_dereference
    else Done (microvms ++
                 if String.eqb namespace "" then map created specs else [])%list w.
Proof.
  induction specs as [|l specs IH]; intros microvms.
  - simpl. unfold ret. destruct (String.eqb namespace ""); by rewrite app_nil_r.
  - cbn [ListMicroVMs_range ListMicroVMsRequest.Name ListMicroVMsRequest.Namespace
           existsb].
    unfold bind. rewrite shouldReturn_unnamed. fold (@bind Payload).
    destruct (String.eqb (MicroVMSpec.Namespace (heap w l)) namespace); [done|].
    cbn [orb]. rewrite IH.
    destruct (existsb _ specs); [done|].
    destruct (String.eqb namespace ""); [|done].
    cbn [map]. by rewrite <- app_assoc.
Qed.
End StoreProperties.

(** ** DeleteMicroVM *)

Section DeleteProperties.
Context {Payload : Type}.
Implicit Types (w : world Payload) (h : loc -> MicroVMSpec.t Payload)
  (l spec z : loc) (u uid : string) (specs : list loc).

Lemma overwritten_without_match h uid z specs :
  forallb (fun l => negb (uid_matches h uid l)) specs = true ->
  map (overwritten h uid z) specs = specs.
Proof.
  induction specs as [|l specs IH]; [done|].
  cbn [forallb map]. intros [Hl Hspecs]%andb_prop.
  unfold overwritten at 1. apply negb_true_iff in Hl. rewrite Hl.
  by rewrite IH.
Qed.

Lemma deleted_lines_without_match h uid specs :
  forallb (fun l => negb (uid_matches h uid l)) specs = true ->
  deleted_lines h uid specs = [].
Proof.
  unfold deleted_lines. induction specs as [|l specs IH]; [done|].
  cbn [forallb List.filter]. intros [Hl Hspecs]%andb_prop.
  apply negb_true_iff in Hl. rewrite Hl. auto.
Qed.

(** On a collection that is not empty, all of whose records carry a uid
    and none the requested one, the handler reports success and the last
    record is gone. *)
Lemma DeleteMicroVM_without_match uid h specs z out :
  forallb (has_uid h) (specs ++ [z]) = true ->
  forallb (fun l => negb (uid_matches h uid l)) (specs ++ [z]) = true ->
  DeleteMicroVM {| DeleteMicroVMRequest.Uid := uid |}
    {| heap := h; server := {| savedSpecs := specs ++ [z] |}; stdout := out |}
  = Done (inl emptypb_Empty)
      {| heap := h; server := {| savedSpecs := specs |}; stdout := out |}.
Proof.
  intros Hall Hnone. rewrite DeleteMicroVM_eq, last_snoc, Hall.
  rewrite overwritten_without_match, deleted_lines_without_match by done.
  rewrite length_app. simpl.
  replace (length specs + 1 - 1) with (length specs) by lia.
  by rewrite take_app_length, app_nil_r.
Qed.

(** On an empty collection the handler does nothing and reports success. *)
Lemma DeleteMicroVM_empty uid h out :
  DeleteMicroVM {| DeleteMicroVMRequest.Uid := uid |}
    {| heap := h; server := New; stdout := out |}
  = Done (inl emptypb_Empty) {| heap := h; server := New; stdout := out |}.
Proof. reflexivity. Qed.

(** A list with exactly one match splits around it. *)
Lemma one_match_split (m : loc -> bool) specs :
  length (List.filter m specs) = 1 ->
  exists pre x post,
    specs = pre ++ x :: post /\ m x = true /\
    forallb (fun l => negb (m l)) pre = true /\
    forallb (fun l => negb (m l)) post = true.
Proof.
  induction specs as [|a specs IH]; [discriminate|].
  cbn [List.filter]. destruct (m a) eqn:Ha.
  - cbn [length]. intros Hlen. exists [], a, specs. repeat split; try done.
    assert (List.filter m specs = []) as Hnil
      by (destruct (List.filter m specs); [done | simpl in Hlen; lia]).
    clear -Hnil. induction specs as [|b specs IH]; [done|].
    cbn [List.filter] in Hnil. cbn [forallb].
    destruct (m b); [discriminate|]. simpl. auto.
  - intros (pre & x & post & -> & Hx & H1 & H2)%IH.
    exists (a :: pre), x, post. repeat split; try done.
    cbn [forallb]. by rewrite Ha, H1.
Qed.

(** Removal without order: with exactly one match, what the loop and the
    truncation leave is the old collection without the match, and what
    is left holds no match. *)
Lemma unordered_removal h uid specs z :
  length (List.filter (uid_matches h uid) specs) = 1 ->
  last specs = Some z ->
  exists x,
    uid_matches h uid x = true /\
    specs ≡ₚ x :: take (length specs - 1) (map (overwritten h uid z) specs) /\
    forallb (fun l => negb (uid_matches h uid l))
      (take (length specs - 1) (map (overwritten h uid z) specs)) = true.
Proof.
  intros (pre & x & post & -> & Hx & H1 & H2)%one_match_split Hlast.
  exists x. split; [done|].
  assert (overwritten h uid z x = z) as Hov
    by (unfold overwritten; by rewrite Hx).
  rewrite map_app. cbn [map]. rewrite Hov.
  rewrite !overwritten_without_match by done.
  destruct (decide (post = [])) as [->|Hne].
  - rewrite length_app. simpl.
    replace (length pre + 1 - 1) with (length pre) by lia.
    rewrite take_app_length. split; [|done].
    by rewrite Permutation_app_comm.
  - destruct (exists_last Hne) as (post' & z' & ->).
    rewrite app_comm_cons, app_assoc, last_snoc in Hlast.
    injection Hlast as ->.
    replace (pre ++ z :: post' ++ [z]) with ((pre ++ z :: post') ++ [z])
      by (by rewrite <- app_assoc).
    replace (length (pre ++ x :: post' ++ [z]) - 1) with (length (pre ++ z :: post'))
      by (rewrite !length_app; simpl; rewrite length_app; simpl; lia).
    rewrite take_app_length. split.
    + rewrite (Permutation_app_comm post' [z]). simpl.
      rewrite <- !Permutation_middle. by rewrite Permutation_swap.
    + rewrite forallb_app in H2. apply andb_prop in H2 as [H2 Hz].
      cbn [forallb] in Hz. rewrite forallb_app. cbn [forallb].
      rewrite H1, H2. apply andb_prop in Hz as [-> _]. done.
Qed.
End DeleteProperties.

(** ** ListMicroVMs and GetMicroVM as a whole *)

Section ReadProperties.
Context {Payload : Type}.
Implicit Types (w : world Payload) (h : loc -> MicroVMSpec.t Payload)
  (l spec z : loc) (u uid : string) (specs : list loc).

Lemma ListMicroVMs_named w n namespace :
  ListMicroVMs {| ListMicroVMsRequest.Name := Some n;
                  ListMicroVMsRequest.Namespace := namespace |} w
  = Done (inl {| ListMicroVMsResponse.Microvm :=
                   map created
                     (List.filter (selected (heap w) n namespace)
                        (savedSpecs (server w))) |}) w.
Proof.
  unfold ListMicroVMs, bind, get_savedSpecs.
  by rewrite ListMicroVMs_range_named.
Qed.

Lemma ListMicroVMs_unnamed w namespace :
  ListMicroVMs {| ListMicroVMsRequest.Name := None;
                  ListMicroVMsRequest.Namespace := namespace |} w
  = if existsb (fun l => String.eqb (MicroVMSpec.Namespace (heap w l)) namespace)
         (savedSpecs (server w))
    then Panicked nil_pointer_dereference
    else Done (inl {| ListMicroVMsResponse.Microvm :=
                        if String.eqb namespace ""
                        then map created (savedSpecs (server w)) else [] |}) w.
Proof.
  unfold ListMicroVMs, bind, get_savedSpecs.
  rewrite ListMicroVMs_range_unnamed.
  by destruct (existsb _ _).
Qed.

(** Whatever the request, a list that comes back leaves the world as it
    was and holds stored records only, each with the state CREATED. *)
Lemma ListMicroVMs_returns w req resp w' :
  ListMicroVMs req w = Done (inl resp) w' ->
  w' = w /\
  forall m, In m (ListMicroVMsResponse.Microvm resp) ->
    m = created (MicroVM.Spec m) /\ In (MicroVM.Spec m) (savedSpecs (server w)).
Proof.
  destruct req as [[n|] namespace].
  - rewrite ListMicroVMs_named. intros [= <- <-]. split; [done|].
    cbn [ListMicroVMsResponse.Microvm]. intros m (l & <- & Hl)%in_map_iff.
    apply List.filter_In in Hl as [Hl _]. done.
  - rewrite ListMicroVMs_unnamed. destruct (existsb _ _); [discriminate|].
    intros [= <- <-]. split; [done|].
    cbn [ListMicroVMsResponse.Microvm].
    destruct (String.eqb namespace ""); [|by intros m []].
    by intros m (l & <- & Hl)%in_map_iff.
Qed.

Lemma GetMicroVM_eq uid w :
  GetMicroVM {| GetMicroVMRequest.Uid := uid |} w
  = if forallb (has_uid (heap w)) (savedSpecs (server w))
    then match last_match (heap w) uid (savedSpecs (server w)) None with
         | None => Done (inr (errors_New "rpc error: microvm not found")) w
         | Some spec =>
             Done (inl {| GetMicroVMResponse.Microvm := created spec |})
               {| heap := heap w; server := server w;
                  stdout := stdout w ++
                    ["microvm found: " +:+ MicroVMSpec.Id (heap w spec)] |}
         end
    else Panicked nil_pointer_dereference.
Proof.
  unfold GetMicroVM. unfold bind at 1. unfold get_savedSpecs at 1.
  unfold bind at 1. cbn [GetMicroVMRequest.Uid]. rewrite GetMicroVM_range_eq.
  destruct (forallb _ _); [|done].
  by destruct (last_match _ _ _ _).
Qed.
End ReadProperties.

(** ** The claims about DeleteMicroVM *)

(** C1, on a fresh server: two creates, then a delete for a uid that
    neither record carries.  The delete reports success, and the
    collection has lost its last record instead of staying as it was. *)
Theorem DeleteMicroVM_absent_uid_drops_last :
  exists w,
    (CreateMicroVM (inl "uid-a") {| CreateMicroVMRequest.Microvm := Some 4 |} ;;;
     CreateMicroVM (inl "uid-b") {| CreateMicroVMRequest.Microvm := Some 5 |} ;;;
     before <- get_savedSpecs ;;
     r <- DeleteMicroVM {| DeleteMicroVMRequest.Uid := "uid-9" |} ;;
     after <- get_savedSpecs ;;
     ret (before, r, after))
      {| heap := sample_heap; server := New; stdout := [] |}
    = Done ([4; 5], inl emptypb_Empty, [4]) w /\
    MicroVMSpec.Uid (heap w 4) = Some "uid-a" /\
    MicroVMSpec.Uid (heap w 5) = Some "uid-b".
Proof. eexists. repeat split; reflexivity. Qed.

(** C2, on collections loaded with vm0 and vm2, which carry the same uid:
    one delete shortens the collection by one record, not by two.  When
    the last record is a match it stays, still carrying the uid; when it
    is not, it is left standing twice. *)
Theorem DeleteMicroVM_shared_uid_shrinks_by_one :
  uid_matches sample_heap "uid-0" 0 = true /\
  uid_matches sample_heap "uid-0" 2 = true /\
  uid_matches sample_heap "uid-0" 1 = false /\
  (Load [0; 2] ;;; DeleteMicroVM {| DeleteMicroVMRequest.Uid := "uid-0" |})
    (sample_world [] [])
  = Done (inl emptypb_Empty)
      (sample_world [2] ["microvm deleted: vm0"; "microvm deleted: vm2"]) /\
  (Load [0; 2; 1] ;;; DeleteMicroVM {| DeleteMicroVMRequest.Uid := "uid-0" |})
    (sample_world [] [])
  = Done (inl emptypb_Empty)
      (sample_world [1; 1] ["microvm deleted: vm0"; "microvm deleted: vm2"]).
Proof. repeat split; reflexivity. Qed.

Section DeleteClaims.
Context {Payload : Type}.
Implicit Types (w : world Payload) (uid : string).

(** C5: when exactly one stored record carries the uid and DeleteMicroVM
    returns, it returns success and leaves every message as it was; the
    collection is the old one without that record, up to order; no record
    left carries the uid; GetMicroVM for the uid then answers not found,
    and no list that comes back holds a record with the uid. *)
Theorem DeleteMicroVM_single_match w uid r w1 :
  length (List.filter (uid_matches (heap w) uid) (savedSpecs (server w))) = 1 ->
  DeleteMicroVM {| DeleteMicroVMRequest.Uid := uid |} w = Done r w1 ->
  r = inl emptypb_Empty /\
  heap w1 = heap w /\
  (exists spec,
      MicroVMSpec.Uid (heap w spec) = Some uid /\
      savedSpecs (server w) ≡ₚ spec :: savedSpecs (server w1)) /\
  (forall l, In l (savedSpecs (server w1)) ->
             MicroVMSpec.Uid (heap w1 l) <> Some uid) /\
  GetMicroVM {| GetMicroVMRequest.Uid := uid |} w1
  = Done (inr (errors_New "rpc error: microvm not found")) w1 /\
  (forall req resp w2,
      ListMicroVMs req w1 = Done (inl resp) w2 ->
      forall m, In m (ListMicroVMsResponse.Microvm resp) ->
                MicroVMSpec.Uid (heap w2 (MicroVM.Spec m)) <> Some uid).
Proof.
  destruct w as [h [specs] out]. cbn [heap server savedSpecs].
  intros Hone. rewrite DeleteMicroVM_eq.
  destruct (last specs) as [z|] eqn:Hlast.
  2:{ apply last_None in Hlast as ->. discriminate. }
  destruct (forallb (has_uid h) specs) eqn:Hall; [|discriminate].
  intros [= <- <-]. cbn [heap server savedSpecs].
  destruct (unordered_removal h uid specs z Hone Hlast) as (x & Hx & Hperm & Hnone).
  set (specs1 := take (length specs - 1) (map (overwritten h uid z) specs)) in *.
  assert (forall l, In l specs1 -> MicroVMSpec.Uid (h l) <> Some uid) as Hgone.
  { intros l Hl Hu. rewrite forallb_forall in Hnone. specialize (Hnone l Hl).
    apply negb_true_iff in Hnone.
    apply uid_matches_true in Hu. congruence. }
  assert (forallb (has_uid h) specs1 = true) as Hall1.
  { apply forallb_forall. intros l Hl. rewrite forallb_forall in Hall.
    apply Hall. apply list_elem_of_In. rewrite Hperm.
    apply list_elem_of_In. by right. }
  repeat split.
  - exists x. split; [|done]. by apply uid_matches_true.
  - done.
  - rewrite GetMicroVM_eq. cbn [heap server savedSpecs]. rewrite Hall1.
    by rewrite last_match_None.
  - intros req resp w2 Hlist m Hm.
    apply ListMicroVMs_returns in Hlist as [-> Hin].
    cbn [heap server savedSpecs] in *. apply Hgone. by apply Hin.
Qed.
End DeleteClaims.

(** C5 at the sample collection [vm0; vm1; vm2] and the uid of vm1. *)
Lemma DeleteMicroVM_single_match_witness :
  GetMicroVM {| GetMicroVMRequest.Uid := "uid-1" |}
    (sample_world [0; 2] ["microvm deleted: vm1"])
  = Done (inr (errors_New "rpc error: microvm not found"))
      (sample_world [0; 2] ["microvm deleted: vm1"]).
Proof.
  apply (DeleteMicroVM_single_match (sample_world [0; 1; 2] []) "uid-1"
           (inl emptypb_Empty) (sample_world [0; 2] ["microvm deleted: vm1"]));
    reflexivity.
Defined.

(** ** The claims about ListMicroVMs *)

Section ListClaims.
Context {Payload : Type}.
Implicit Types (w : world Payload) (n namespace : string).

Lemma filter_all {A} (f : A -> bool) (xs : list A) :
  (forall x, In x xs -> f x = true) -> List.filter f xs = xs.
Proof.
  induction xs as [|x xs IH]; [done|].
  intros Hall. cbn [List.filter]. rewrite (Hall x) by (by left).
  rewrite IH; [done|]. intros y Hy. apply Hall. by right.
Qed.



End ListClaims.





(** ** The claims about CreateMicroVM *)

Section CreateProperties.
Context {Payload : Type}.
Implicit Types (w : world Payload) (h : loc -> MicroVMSpec.t Payload)
  (l spec : loc) (u uid : string) (specs : list loc).

Lemma heap_with_Uid_same h spec uid :
  heap_with_Uid h spec uid spec = MicroVMSpec.set_Uid (h spec) uid.
Proof. unfold heap_with_Uid. by rewrite decide_True. Qed.

Lemma heap_with_Uid_other h spec uid l :
  l <> spec -> heap_with_Uid h spec uid l = h l.
Proof. intros Hne. unfold heap_with_Uid. by rewrite decide_False. Qed.

Lemma heap_with_Uid_has_uid h spec uid l :
  has_uid h l = true -> has_uid (heap_with_Uid h spec uid) l = true.
Proof.
  unfold has_uid, heap_with_Uid. by destruct (decide (l = spec)).
Qed.

Lemma CreateMicroVM_generated w uid spec :
  CreateMicroVM (inl uid) {| CreateMicroVMRequest.Microvm := Some spec |} w
  = Done (inl {| CreateMicroVMResponse.Microvm :=
                   {| MicroVM.Version := 0;
                      MicroVM.Spec := spec;
                      MicroVM.Status := {| MicroVMStatus.State := 0 |} |} |})
      (world_created w spec uid).
Proof.
  unfold CreateMicroVM, world_created, bind, deref, ret, write_Uid,
    get_savedSpecs, set_savedSpecs, read, Println. simpl.
  by rewrite heap_with_Uid_same.
Qed.

Lemma CreateMicroVM_failed w err req :
  CreateMicroVM (inr err) req w = Done (inr err) w.
Proof. reflexivity. Qed.

Lemma CreateMicroVM_without_spec w uid :
  CreateMicroVM (inl uid) {| CreateMicroVMRequest.Microvm := None |} w
  = Panicked nil_pointer_dereference.
Proof. reflexivity. Qed.

(** A create that returns a record was given an identifier and a spec. *)
Lemma CreateMicroVM_returns w NewV4 req resp w1 :
  CreateMicroVM NewV4 req w = Done (inl resp) w1 ->
  exists uid spec,
    NewV4 = inl uid /\ req = {| CreateMicroVMRequest.Microvm := Some spec |} /\
    resp = {| CreateMicroVMResponse.Microvm :=
                {| MicroVM.Version := 0;
                   MicroVM.Spec := spec;
                   MicroVM.Status := {| MicroVMStatus.State := 0 |} |} |} /\
    w1 = world_created w spec uid.
Proof.
  destruct NewV4 as [uid|err]; [|discriminate].
  destruct req as [[spec|]]; [|discriminate].
  rewrite CreateMicroVM_generated. intros [= <- <-]. by exists uid, spec.
Qed.

(** C4, as amended: in a collection all of whose records carry a uid,
    a create that returns a record gives it a uid under which GetMicroVM,
    called next, returns the same spec message, as stored, with state
    CREATED. *)
Theorem CreateMicroVM_then_GetMicroVM w NewV4 req resp w1 :
  forallb (has_uid (heap w)) (savedSpecs (server w)) = true ->
  CreateMicroVM NewV4 req w = Done (inl resp) w1 ->
  exists uid,
    MicroVMSpec.Uid (heap w1 (MicroVM.Spec (CreateMicroVMResponse.Microvm resp)))
    = Some uid /\
    GetMicroVM {| GetMicroVMRequest.Uid := uid |} w1
    = Done (inl {| GetMicroVMResponse.Microvm :=
                     {| MicroVM.Version := 0;
                        MicroVM.Spec := MicroVM.Spec (CreateMicroVMResponse.Microvm resp);
                        MicroVM.Status :=
                          {| MicroVMStatus.State := MicroVMStatus_CREATED |} |} |})
        {| heap := heap w1; server := server w1;
           stdout := stdout w1 ++
             ["microvm found: " +:+
              MicroVMSpec.Id
                (heap w1 (MicroVM.Spec (CreateMicroVMResponse.Microvm resp)))] |}.
Proof.
  intros Hall (uid & spec & -> & -> & -> & ->)%CreateMicroVM_returns.
  exists uid. cbn [CreateMicroVMResponse.Microvm MicroVM.Spec].
  assert (MicroVMSpec.Uid (heap (world_created w spec uid) spec) = Some uid) as Hu.
  { cbn [world_created heap]. by rewrite heap_with_Uid_same. }
  split; [done|].
  rewrite GetMicroVM_eq. cbn [world_created heap server savedSpecs].
  rewrite forallb_app. cbn [forallb].
  replace (forallb _ (savedSpecs (server w))) with true.
  2:{ symmetry. apply forallb_forall. intros l Hl.
      apply heap_with_Uid_has_uid. rewrite forallb_forall in Hall. by apply Hall. }
  assert (uid_matches (heap_with_Uid (heap w) spec uid) uid spec = true) as Hm.
  { by apply uid_matches_true. }
  rewrite (uid_matches_has_uid _ uid spec Hm).
  cbn [andb]. by rewrite last_match_snoc.
Qed.

(** C8, as amended: given an identifier and a spec message that the
    collection does not hold already, the handler writes the identifier
    into the message, appends it behind the records held, which stay as
    they were, slot by slot and field by field, and returns it with
    version zero and the zero status; given a failure of the generator,
    it returns that error and changes nothing. *)
Theorem CreateMicroVM_appends w uid err spec :
  (~ In spec (savedSpecs (server w)) ->
   exists w1,
     CreateMicroVM (inl uid) {| CreateMicroVMRequest.Microvm := Some spec |} w
     = Done (inl {| CreateMicroVMResponse.Microvm :=
                      {| MicroVM.Version := 0;
                         MicroVM.Spec := spec;
                         MicroVM.Status := {| MicroVMStatus.State := 0 |} |} |}) w1 /\
     heap w1 spec = MicroVMSpec.set_Uid (heap w spec) uid /\
     savedSpecs (server w1) = savedSpecs (server w) ++ [spec] /\
     (forall l, In l (savedSpecs (server w)) -> heap w1 l = heap w l)) /\
  (forall req, CreateMicroVM (inr err) req w = Done (inr err) w).
Proof.
  split; [|done]. intros Hfresh. exists (world_created w spec uid).
  split; [apply CreateMicroVM_generated|].
  cbn [world_created heap server savedSpecs].
  split; [apply heap_with_Uid_same|]. split; [done|].
  intros l Hl. apply heap_with_Uid_other. by intros ->.
Qed.
End CreateProperties.

Section UidProperties.
Context {Payload : Type}.
Implicit Types (w : world Payload) (l spec : loc) (uid : string).




End UidProperties.

(** C4 as first stated fails: vm3 is loaded without a uid; the create of
    vm4 goes through, and the get that follows panics on vm3. *)
Lemma CreateMicroVM_then_GetMicroVM_panics :
  exists resp w1,
    (Load [3] ;;;
     CreateMicroVM (inl "uid-4") {| CreateMicroVMRequest.Microvm := Some 4 |})
      (sample_world [] [])
    = Done (inl resp) w1 /\
    MicroVMSpec.Uid (heap w1 (MicroVM.Spec (CreateMicroVMResponse.Microvm resp)))
    = Some "uid-4" /\
    GetMicroVM {| GetMicroVMRequest.Uid := "uid-4" |} w1
    = Panicked nil_pointer_dereference.
Proof. do 2 eexists. repeat split; reflexivity. Qed.

(** C4 at the sample collection [vm0; vm1] and the new message vm4. *)
Lemma CreateMicroVM_then_GetMicroVM_witness :
  exists uid,
    MicroVMSpec.Uid (heap (world_created (sample_world [0; 1] []) 4 "uid-4") 4)
    = Some uid /\
    GetMicroVM {| GetMicroVMRequest.Uid := uid |}
      (world_created (sample_world [0; 1] []) 4 "uid-4")
    = Done (inl {| GetMicroVMResponse.Microvm := created 4 |})
        {| heap := heap_with_Uid sample_heap 4 "uid-4";
           server := {| savedSpecs := [0; 1; 4] |};
           stdout := ["microvm created: vm4"; "microvm found: vm4"] |}.
Proof.
  apply (CreateMicroVM_then_GetMicroVM (sample_world [0; 1] []) (inl "uid-4")
           {| CreateMicroVMRequest.Microvm := Some 4 |}
           {| CreateMicroVMResponse.Microvm :=
                {| MicroVM.Version := 0; MicroVM.Spec := 4;
                   MicroVM.Status := MicroVMStatus.zero |} |}
           (world_created (sample_world [0; 1] []) 4 "uid-4"));
    reflexivity.
Defined.

(** C8 as first stated fails: a create that is handed vm1, which the
    collection holds, writes the new identifier over the uid of the stored
    record. *)
Lemma CreateMicroVM_stored_spec_rewritten :
  exists w0 resp w1,
    Load [0; 1] (sample_world [] []) = Done tt w0 /\
    CreateMicroVM (inl "uid-new") {| CreateMicroVMRequest.Microvm := Some 1 |} w0
    = Done (inl resp) w1 /\
    In 1 (savedSpecs (server w0)) /\
    MicroVMSpec.Uid (heap w0 1) = Some "uid-1" /\
    MicroVMSpec.Uid (heap w1 1) = Some "uid-new" /\
    heap w1 1 <> heap w0 1.
Proof.
  do 3 eexists. repeat split; try reflexivity.
  - right. by left.
  - discriminate.
Qed.

(** C8 at the sample collection [vm0; vm1] and the new message vm4. *)
Lemma CreateMicroVM_appends_witness :
  exists w1,
    CreateMicroVM (inl "uid-4") {| CreateMicroVMRequest.Microvm := Some 4 |}
      (sample_world [0; 1] [])
    = Done (inl {| CreateMicroVMResponse.Microvm :=
                     {| MicroVM.Version := 0;
                        MicroVM.Spec := 4;
                        MicroVM.Status := {| MicroVMStatus.State := 0 |} |} |}) w1 /\
    heap w1 4 = MicroVMSpec.mk "vm4" "ns1" (Some "uid-4") tt /\
    savedSpecs (server w1) = [0; 1; 4] /\
    (forall l, In l [0; 1] -> heap w1 l = sample_heap l).
Proof.
  apply (proj1 (CreateMicroVM_appends (sample_world [0; 1] []) "uid-4"
                  (foreign "no entropy") 4)).
  simpl. intros [H|[H|[]]]; discriminate H.
Defined.



(** ** The claim about the auth gate *)

Lemma String_compare_refl (s : string) : String.compare s s = Eq.
Proof.
  pose proof (String.compare_antisym s s) as H.
  destruct (String.compare s s); simpl in H; congruence.
Qed.

Lemma strings_Compare_zero (a b : string) : strings_Compare a b = 0%Z <-> a = b.
Proof.
  unfold strings_Compare. split.
  - destruct (String.compare a b) eqn:Hc; try discriminate.
    intros _. by apply String.compare_eq_iff.
  - intros ->. by rewrite String_compare_refl.
Qed.

Lemma validateBasicAuthToken_nil (clientToken serverToken : string) :
  validateBasicAuthToken clientToken serverToken = None
  <-> clientToken = EncodeToString serverToken.
Proof.
  unfold validateBasicAuthToken. rewrite <- strings_Compare_zero.
  destruct (Z.eqb_spec (strings_Compare clientToken (EncodeToString serverToken)) 0)
    as [Heq|Hne]; simpl; split; try done.
Qed.

Lemma validateBasicAuthToken_error (clientToken serverToken : string) :
  clientToken <> EncodeToString serverToken ->
  validateBasicAuthToken clientToken serverToken
  = Some (errors_New "tokens do not match").
Proof.
  intros Hne. destruct (validateBasicAuthToken clientToken serverToken) eqn:Hv.
  - unfold validateBasicAuthToken in Hv.
    destruct (negb _) in Hv; congruence.
  - by apply validateBasicAuthToken_nil in Hv.
Qed.

Section AuthClaims.
Context {context : Type}.
Variable AuthFromMD : context -> string -> string + error.

(** C7: with a secret that is not empty, both interceptor chains are the
    auth check for that secret.  The check lets a call through exactly
    when the credential read from the call is, as it stands, the base64
    text of the secret, and then hands back the context it was given; any
    other credential ends the call with an Unauthenticated status; a
    credential that cannot be read ends it with the error that says the
    token could not be extracted from the header. *)
Theorem basicAuthFunc_gate (secret : string) :
  secret <> "" ->
  WithOpts AuthFromMD secret
  = [ grpc_StreamInterceptor
        [ grpc_auth_ServerInterceptor (basicAuthFunc AuthFromMD secret) ];
      grpc_UnaryInterceptor
        [ grpc_auth_ServerInterceptor (basicAuthFunc AuthFromMD secret) ] ] /\
  forall ctx,
    (forall ctx',
        basicAuthFunc AuthFromMD secret ctx = inl ctx' <->
        AuthFromMD ctx "basic" = inl (EncodeToString secret) /\ ctx' = ctx) /\
    (forall token,
        AuthFromMD ctx "basic" = inl token ->
        token <> EncodeToString secret ->
        basicAuthFunc AuthFromMD secret ctx
        = inr (status_Errorf codes_Unauthenticated "invalid auth token: %v"
                 (errors_New "tokens do not match"))) /\
    (forall err,
        AuthFromMD ctx "basic" = inr err ->
        basicAuthFunc AuthFromMD secret ctx
        = inr (fmt_Errorf "could not extract token from request header: %w" err)).
Proof.
  intros Hsecret%String.eqb_neq. split.
  - unfold WithOpts. by rewrite Hsecret.
  - intros ctx. unfold basicAuthFunc.
    destruct (AuthFromMD ctx "basic") as [token|err] eqn:Hmd.
    + destruct (validateBasicAuthToken token secret) as [e|] eqn:Hv.
      * assert (token <> EncodeToString secret) as Hne.
        { intros Heq%validateBasicAuthToken_nil. congruence. }
        rewrite (validateBasicAuthToken_error _ _ Hne) in Hv.
        injection Hv as <-. repeat split; try done.
        intros [[= ->] _]. done.
      * apply validateBasicAuthToken_nil in Hv as ->.
        repeat split; try congruence. by intros [_ ->].
    + repeat split; try done; try congruence. by intros [? _].
Qed.
End AuthClaims.

(** C7 for the secret [secret] and a call that sends its base64 text. *)
Lemma basicAuthFunc_gate_witness :
  basicAuthFunc sample_AuthFromMD "secret" (Some "c2VjcmV0") = inl (Some "c2VjcmV0").
Proof.
  apply (proj2 (basicAuthFunc_gate sample_AuthFromMD "secret" ltac:(discriminate))
           (Some "c2VjcmV0")).
  split; reflexivity.
Defined.

(** ** More about the record store *)

Section StoreExtras.
Context {Payload : Type}.
Implicit Types (w : world Payload) (h : loc -> MicroVMSpec.t Payload)
  (l spec z : loc) (u uid : string) (specs : list loc).

Lemma last_match_unmatched h uid specs (acc : option loc) :
  forallb (fun l => negb (uid_matches h uid l)) specs = true ->
  last_match h uid specs acc = acc.
Proof.
  unfold last_match. revert acc. induction specs as [|l specs IH]; [done|].
  intros acc. cbn [forallb fold_left]. intros [Hl Hspecs]%andb_prop.
  apply negb_true_iff in Hl. rewrite Hl. auto.
Qed.

Lemma last_match_found h uid specs l :
  last_match h uid specs None = Some l ->
  In l specs /\ uid_matches h uid l = true.
Proof.
  unfold last_match.
  assert (forall acc,
             fold_left (fun acc x => if uid_matches h uid x then Some x else acc)
               specs acc = Some l ->
             acc = Some l \/ (In l specs /\ uid_matches h uid l = true)) as Hgen.
  { induction specs as [|x specs IH]; intros acc; cbn [fold_left]; [by left|].
    intros [Hacc|[Hin Hm]]%IH.
    - destruct (uid_matches h uid x) eqn:Hx; [|by left].
      injection Hacc as ->. right. split; [by left | done].
    - right. split; [by right | done]. }
  intros [Hacc|Hfound]%Hgen; [discriminate | done].
Qed.

Lemma unmatched_forallb h uid specs :
  (forall l, In l specs -> MicroVMSpec.Uid (h l) <> Some uid) ->
  forallb (fun l => negb (uid_matches h uid l)) specs = true.
Proof.
  intros Hnone. apply forallb_forall. intros l Hl. apply negb_true_iff.
  apply not_true_is_false. intros Hm%uid_matches_true. by apply (Hnone l).
Qed.

Lemma has_uid_false h l :
  has_uid h l = false <-> MicroVMSpec.Uid (h l) = None.
Proof.
  unfold has_uid. destruct (MicroVMSpec.Uid (h l)); split; done.
Qed.

Lemma forallb_has_uid_false h specs :
  forallb (has_uid h) specs = false <->
  exists l, In l specs /\ MicroVMSpec.Uid (h l) = None.
Proof.
  split.
  - intros Hall. induction specs as [|x specs IH]; [discriminate|].
    cbn [forallb] in Hall. apply andb_false_iff in Hall as [Hx|Hrest].
    + exists x. split; [by left | by apply has_uid_false].
    + destruct (IH Hrest) as (l & Hl & Hu). exists l. split; [by right | done].
  - intros (l & Hl & Hu). apply not_true_is_false. intros Hall.
    rewrite forallb_forall in Hall. specialize (Hall l Hl).
    apply has_uid_false in Hu. congruence.
Qed.


(** A get for a uid that no stored record carries, in a collection whose
    records all carry one, answers not found and changes nothing, not
    even the console. *)
Theorem GetMicroVM_unknown_uid w uid :
  forallb (has_uid (heap w)) (savedSpecs (server w)) = true ->
  (forall l, In l (savedSpecs (server w)) -> MicroVMSpec.Uid (heap w l) <> Some uid) ->
  GetMicroVM {| GetMicroVMRequest.Uid := uid |} w
  = Done (inr (errors_New "rpc error: microvm not found")) w.
Proof.
  intros Hall Hnone. rewrite GetMicroVM_eq, Hall.
  by rewrite last_match_unmatched by (by apply unmatched_forallb).
Qed.

(** When several stored records carry the uid, a get returns the one
    stored last. *)
Theorem GetMicroVM_last_of_several w uid (pre post : list loc) l :
  savedSpecs (server w) = pre ++ l :: post ->
  forallb (has_uid (heap w)) (savedSpecs (server w)) = true ->
  MicroVMSpec.Uid (heap w l) = Some uid ->
  (forall x, In x post -> MicroVMSpec.Uid (heap w x) <> Some uid) ->
  GetMicroVM {| GetMicroVMRequest.Uid := uid |} w
  = Done (inl {| GetMicroVMResponse.Microvm := created l |})
      {| heap := heap w; server := server w;
         stdout := stdout w ++ ["microvm found: " +:+ MicroVMSpec.Id (heap w l)] |}.
Proof.
  intros Hspecs Hall Hl Hpost. rewrite GetMicroVM_eq, Hall, Hspecs.
  replace (last_match (heap w) uid (pre ++ l :: post) None) with (Some l); [done|].
  unfold last_match. rewrite fold_left_app. cbn [fold_left].
  apply uid_matches_true in Hl. rewrite Hl. symmetry.
  apply last_match_unmatched. by apply unmatched_forallb.
Qed.

(** A get panics exactly when some stored record has no uid, whichever
    uid is asked for. *)
Theorem GetMicroVM_panics_iff w req (p : panic) :
  GetMicroVM req w = Panicked p <->
  p = nil_pointer_dereference /\
  exists l, In l (savedSpecs (server w)) /\ MicroVMSpec.Uid (heap w l) = None.
Proof.
  destruct req as [uid]. rewrite GetMicroVM_eq, <- forallb_has_uid_false.
  destruct (forallb _ _).
  - split; [|by intros [_ ?]]. by destruct (last_match _ _ _ _).
  - split; [by intros [= <-] | by intros [-> _]].
Qed.

(** What a get returns is sound: a record it hands back is one of the
    stored records, carries the uid asked for, and comes with version zero
    and state CREATED; a get that errs reports not found and leaves the
    world alone.  Either way the collection and the messages are as
    before. *)
Theorem GetMicroVM_sound w req r w' :
  GetMicroVM req w = Done r w' ->
  heap w' = heap w /\ server w' = server w /\
  match r with
  | inl resp =>
      let spec := MicroVM.Spec (GetMicroVMResponse.Microvm resp) in
      GetMicroVMResponse.Microvm resp = created spec /\
      In spec (savedSpecs (server w)) /\
      MicroVMSpec.Uid (heap w spec) = Some (GetMicroVMRequest.Uid req) /\
      stdout w' = stdout w ++ ["microvm found: " +:+ MicroVMSpec.Id (heap w spec)]
  | inr err => err = errors_New "rpc error: microvm not found" /\ w' = w
  end.
Proof.
  destruct req as [uid]. rewrite GetMicroVM_eq.
  destruct (forallb _ _); [|discriminate].
  destruct (last_match _ _ _ _) as [l|] eqn:Hl; intros [= <- <-].
  - apply last_match_found in Hl as [Hin Hm]. apply uid_matches_true in Hm.
    by cbn.
  - done.
Qed.
End StoreExtras.

(** A get for the uid shared by vm0 and vm2 returns vm2, stored after vm0. *)
Lemma GetMicroVM_last_of_several_witness :
  GetMicroVM {| GetMicroVMRequest.Uid := "uid-0" |} (sample_world [0; 2; 1] [])
  = Done (inl {| GetMicroVMResponse.Microvm := created 2 |})
      (sample_world [0; 2; 1] ["microvm found: vm2"]).
Proof.
  apply (GetMicroVM_last_of_several (sample_world [0; 2; 1] []) "uid-0" [0] [1] 2).
  - reflexivity.
  - reflexivity.
  - reflexivity.
  - intros x [<-|[]]. discriminate.
Defined.

(** A get for a uid nobody carries, on the sample collection. *)
Lemma GetMicroVM_unknown_uid_witness :
  GetMicroVM {| GetMicroVMRequest.Uid := "uid-9" |} (sample_world [0; 1] [])
  = Done (inr (errors_New "rpc error: microvm not found")) (sample_world [0; 1] []).
Proof.
  apply (GetMicroVM_unknown_uid (sample_world [0; 1] []) "uid-9").
  - reflexivity.
  - intros l [<-|[<-|[]]]; discriminate.
Defined.

(** A get that finds vm1 on the sample collection. *)
Lemma GetMicroVM_sound_witness :
  heap (sample_world [0; 1] ["microvm found: vm1"]) = heap (sample_world [0; 1] []) /\
  server (sample_world [0; 1] ["microvm found: vm1"]) = server (sample_world [0; 1] []).
Proof.
  destruct (GetMicroVM_sound (sample_world [0; 1] [])
              {| GetMicroVMRequest.Uid := "uid-1" |}
              (inl {| GetMicroVMResponse.Microvm := created 1 |})
              (sample_world [0; 1] ["microvm found: vm1"]) eq_refl)
    as (Hheap & Hserver & _).
  split; [exact Hheap | exact Hserver].
Defined.

Section DeleteExtras.
Context {Payload : Type}.
Implicit Types (w : world Payload) (h : loc -> MicroVMSpec.t Payload)
  (l spec z : loc) (u uid : string) (specs : list loc).

Lemma overwritten_stored h uid z specs l :
  In z specs -> In l (map (overwritten h uid z) specs) -> In l specs.
Proof.
  intros Hz (x & <- & Hx)%in_map_iff. unfold overwritten.
  by destruct (uid_matches h uid x).
Qed.

Lemma last_stored specs z : last specs = Some z -> In z specs.
Proof.
  rewrite last_lookup. intros Hz. apply list_elem_of_In.
  by eapply list_elem_of_lookup_2.
Qed.

(** A delete never hands back an error: it returns success, or it panics,
    and it panics exactly when some stored record has no uid. *)
Theorem DeleteMicroVM_panics_iff w req :
  (forall r w', DeleteMicroVM req w = Done r w' -> r = inl emptypb_Empty) /\
  (forall p,
      DeleteMicroVM req w = Panicked p <->
      p = nil_pointer_dereference /\
      exists l, In l (savedSpecs (server w)) /\ MicroVMSpec.Uid (heap w l) = None).
Proof.
  destruct req as [uid], w as [h [specs] out]. cbn [heap server savedSpecs].
  rewrite DeleteMicroVM_eq. split.
  - intros r w'. destruct (last specs); [destruct (forallb _ _)|];
      by intros [= <- <-].
  - intros p. rewrite <- forallb_has_uid_false.
    destruct (last specs) as [z|] eqn:Hlast.
    + destruct (forallb _ _).
      * split; [done | by intros [_ ?]].
      * split; [by intros [= <-] | by intros [-> _]].
    + apply last_None in Hlast as ->. split; [done | by intros [_ ?]].
Qed.

(** A delete that returns has shortened a collection that was not empty
    by exactly one record, however many records carried the uid, none
    included; every record left was stored before, and no message has
    changed. *)
Theorem DeleteMicroVM_shrinks_by_one w req r w' :
  DeleteMicroVM req w = Done r w' ->
  length (savedSpecs (server w')) = length (savedSpecs (server w)) - 1 /\
  (forall l, In l (savedSpecs (server w')) -> In l (savedSpecs (server w))) /\
  heap w' = heap w.
Proof.
  destruct req as [uid], w as [h [specs] out]. cbn [heap server savedSpecs].
  rewrite DeleteMicroVM_eq.
  destruct (last specs) as [z|] eqn:Hlast.
  - destruct (forallb _ _); [|discriminate]. intros [= <- <-].
    cbn [heap server savedSpecs]. repeat split.
    + rewrite length_take, length_map. lia.
    + intros l (i & Hi & _)%list_elem_of_In%elem_of_take.
      apply list_elem_of_lookup_2, list_elem_of_In in Hi.
      eapply overwritten_stored; [|done]. by apply last_stored.
  - apply last_None in Hlast as ->. by intros [= <- <-].
Qed.

(** The shape of a removal: when one record carries the uid and it is not
    the last, the last record takes its slot and every other record keeps
    its place; when it is the last, the others are left as they stand. *)
Theorem DeleteMicroVM_slot_taken_by_last h uid (pre post : list loc) x z out :
  forallb (has_uid h) (pre ++ x :: post ++ [z]) = true ->
  MicroVMSpec.Uid (h x) = Some uid ->
  (forall l, In l (pre ++ post ++ [z]) -> MicroVMSpec.Uid (h l) <> Some uid) ->
  DeleteMicroVM {| DeleteMicroVMRequest.Uid := uid |}
    {| heap := h; server := {| savedSpecs := pre ++ x :: post ++ [z] |};
       stdout := out |}
  = Done (inl emptypb_Empty)
      {| heap := h; server := {| savedSpecs := pre ++ z :: post |};
         stdout := out ++ ["microvm deleted: " +:+ MicroVMSpec.Id (h x)] |} /\
  DeleteMicroVM {| DeleteMicroVMRequest.Uid := uid |}
    {| heap := h; server := {| savedSpecs := pre ++ [x] |}; stdout := out |}
  = Done (inl emptypb_Empty)
      {| heap := h; server := {| savedSpecs := pre |};
         stdout := out ++ ["microvm deleted: " +:+ MicroVMSpec.Id (h x)] |}.
Proof.
  intros Hall Hx Hothers.
  assert (forallb (fun l => negb (uid_matches h uid l)) pre = true) as Hpre.
  { apply unmatched_forallb. intros l Hl. apply Hothers. apply in_or_app. by left. }
  assert (forallb (fun l => negb (uid_matches h uid l)) (post ++ [z]) = true) as Hpost.
  { apply unmatched_forallb. intros l Hl. apply Hothers. apply in_or_app. by right. }
  apply uid_matches_true in Hx.
  assert (forall y, overwritten h uid y x = y) as Hov
    by (intros y; unfold overwritten; by rewrite Hx).
  assert (forall ls, forallb (fun l => negb (uid_matches h uid l)) ls = true ->
             deleted_lines h uid (pre ++ x :: ls)
             = ["microvm deleted: " +:+ MicroVMSpec.Id (h x)]) as Hlines.
  { assert (forall ks, forallb (fun l => negb (uid_matches h uid l)) ks = true ->
               List.filter (uid_matches h uid) ks = []) as Hnil.
    { induction ks as [|k ks IH]; [done|]. cbn [forallb List.filter].
      intros [Hk Hks]%andb_prop. apply negb_true_iff in Hk. rewrite Hk. auto. }
    intros ls Hls. unfold deleted_lines. rewrite List.filter_app. cbn [List.filter].
    by rewrite Hx, !Hnil. }
  split.
  - rewrite DeleteMicroVM_eq.
    replace (pre ++ x :: post ++ [z]) with ((pre ++ x :: post) ++ [z])
      by (by rewrite <- app_assoc).
    rewrite last_snoc.
    replace ((pre ++ x :: post) ++ [z]) with (pre ++ x :: post ++ [z])
      by (by rewrite <- app_assoc).
    rewrite Hall, Hlines by done.
    rewrite map_app. cbn [map]. rewrite Hov.
    rewrite !overwritten_without_match by done.
    replace (length (pre ++ x :: post ++ [z]) - 1) with (length (pre ++ z :: post))
      by (rewrite !length_app; simpl; rewrite length_app; simpl; lia).
    replace (pre ++ z :: post ++ [z]) with ((pre ++ z :: post) ++ [z])
      by (by rewrite <- app_assoc).
    by rewrite take_app_length.
  - rewrite DeleteMicroVM_eq, last_snoc.
    replace (forallb (has_uid h) (pre ++ [x])) with true.
    2:{ symmetry. rewrite forallb_app in Hall |- *.
        apply andb_prop in Hall as [-> Hrest]. cbn [forallb] in *.
        apply andb_prop in Hrest as [-> _]. done. }
    rewrite (Hlines []) by done.
    rewrite map_app. cbn [map]. rewrite Hov.
    rewrite overwritten_without_match by done.
    replace (length (pre ++ [x]) - 1) with (length pre)
      by (rewrite length_app; simpl; lia).
    by rewrite take_app_length.
Qed.

(** Create, then delete under the uid just given: the collection is back
    to what it was, slot for slot, provided its records carry uids and no
    other record carries the new one.  The message alone keeps the trace:
    it has the uid now. *)
Theorem CreateMicroVM_then_DeleteMicroVM w uid spec :
  forallb (has_uid (heap w)) (savedSpecs (server w)) = true ->
  (forall l, In l (savedSpecs (server w)) -> l <> spec ->
             MicroVMSpec.Uid (heap w l) <> Some uid) ->
  exists w',
    (CreateMicroVM (inl uid) {| CreateMicroVMRequest.Microvm := Some spec |} ;;;
     DeleteMicroVM {| DeleteMicroVMRequest.Uid := uid |}) w
    = Done (inl emptypb_Empty) w' /\
    savedSpecs (server w') = savedSpecs (server w) /\
    heap w' = heap_with_Uid (heap w) spec uid.
Proof.
  intros Hall Hothers. unfold bind at 1. rewrite CreateMicroVM_generated.
  unfold world_created. rewrite DeleteMicroVM_eq, last_snoc.
  set (h1 := heap_with_Uid (heap w) spec uid).
  assert (forallb (has_uid h1) (savedSpecs (server w) ++ [spec]) = true) as ->.
  { rewrite forallb_app. cbn [forallb].
    replace (forallb (has_uid h1) (savedSpecs (server w))) with true.
    - unfold has_uid, h1. by rewrite heap_with_Uid_same.
    - symmetry. apply forallb_forall. intros l Hl.
      apply heap_with_Uid_has_uid. rewrite forallb_forall in Hall. by apply Hall. }
  eexists. split; [reflexivity|]. cbn [heap server savedSpecs]. split; [|done].
  rewrite map_app, length_app. cbn [map length].
  replace (length (savedSpecs (server w)) + 1 - 1)
    with (length (map (overwritten h1 uid spec) (savedSpecs (server w))))
    by (rewrite length_map; lia).
  rewrite take_app_length.
  rewrite <- (map_id (savedSpecs (server w))) at 2.
  apply map_ext_in. intros l Hl. unfold overwritten.
  destruct (decide (l = spec)) as [->|Hne]; [by destruct (uid_matches _ _ _)|].
  replace (uid_matches h1 uid l) with false; [done|].
  symmetry. apply not_true_is_false. intros Hm%uid_matches_true.
  unfold h1 in Hm. rewrite heap_with_Uid_other in Hm by done.
  by apply (Hothers l).
Qed.
End DeleteExtras.

(** A delete on the sample collection [vm0; vm1; vm2] for the uid of vm1:
    vm2 moves into the slot of vm1. *)
Lemma DeleteMicroVM_slot_taken_by_last_witness :
  DeleteMicroVM {| DeleteMicroVMRequest.Uid := "uid-1" |} (sample_world [0; 1; 2] [])
  = Done (inl emptypb_Empty) (sample_world [0; 2] ["microvm deleted: vm1"]).
Proof.
  apply (DeleteMicroVM_slot_taken_by_last sample_heap "uid-1" [0] [] 1 2 []).
  - reflexivity.
  - reflexivity.
  - intros l [<-|[<-|[]]]; discriminate.
Defined.

(** A delete that returns, on the sample collection with a shared uid. *)
Lemma DeleteMicroVM_shrinks_by_one_witness :
  length (savedSpecs (server (sample_world [1; 1]
            ["microvm deleted: vm0"; "microvm deleted: vm2"])))
  = length (savedSpecs (server (sample_world [0; 2; 1] []))) - 1.
Proof.
  apply (DeleteMicroVM_shrinks_by_one (sample_world [0; 2; 1] [])
           {| DeleteMicroVMRequest.Uid := "uid-0" |} (inl emptypb_Empty)
           (sample_world [1; 1] ["microvm deleted: vm0"; "microvm deleted: vm2"])).
  reflexivity.
Defined.

(** Create vm4 on the sample collection [vm0; vm1], then delete it. *)
Lemma CreateMicroVM_then_DeleteMicroVM_witness :
  exists w',
    (CreateMicroVM (inl "uid-4") {| CreateMicroVMRequest.Microvm := Some 4 |} ;;;
     DeleteMicroVM {| DeleteMicroVMRequest.Uid := "uid-4" |}) (sample_world [0; 1] [])
    = Done (inl emptypb_Empty) w' /\
    savedSpecs (server w') = [0; 1] /\
    heap w' = heap_with_Uid sample_heap 4 "uid-4".
Proof.
  apply (CreateMicroVM_then_DeleteMicroVM (sample_world [0; 1] []) "uid-4" 4).
  - reflexivity.
  - intros l [<-|[<-|[]]] _; discriminate.
Defined.

Section ListExtras.
Context {Payload : Type}.
Implicit Types (w : world Payload) (n namespace : string).

Lemma filter_none {A} (xs : list A) : List.filter (fun _ => false) xs = [].
Proof. induction xs; auto. Qed.


(** Whatever the request, a list that returns hands back no error, leaves
    the world untouched, console included, and holds a selection of the
    stored records in stored order, each with version zero and state
    CREATED. *)
Theorem ListMicroVMs_sound w req r w' :
  ListMicroVMs req w = Done r w' ->
  w' = w /\
  exists keep : loc -> bool,
    r = inl {| ListMicroVMsResponse.Microvm :=
                 map created (List.filter keep (savedSpecs (server w))) |}.
Proof.
  destruct req as [[n|] namespace].
  - rewrite ListMicroVMs_named. intros [= <- <-]. split; [done|].
    by exists (selected (heap w) n namespace).
  - rewrite ListMicroVMs_unnamed. destruct (existsb _ _); [discriminate|].
    intros [= <- <-]. split; [done|].
    destruct (String.eqb namespace "").
    + exists (fun _ => true). by rewrite filter_all.
    + exists (fun _ => false). by rewrite filter_none.
Qed.
End ListExtras.


(** A list for namespace ns1 and no particular name, on the sample
    collection. *)
Lemma ListMicroVMs_sound_witness :
  sample_world [0; 2; 1] [] = sample_world [0; 2; 1] [] /\
  exists keep : loc -> bool,
    @inl ListMicroVMsResponse.t error
      {| ListMicroVMsResponse.Microvm := [created 0; created 1] |}
    = inl {| ListMicroVMsResponse.Microvm :=
               map created (List.filter keep [0; 2; 1]) |}.
Proof.
  apply (ListMicroVMs_sound (sample_world [0; 2; 1] [])
           {| ListMicroVMsRequest.Name := Some "";
              ListMicroVMsRequest.Namespace := "ns1" |}).
  reflexivity.
Defined.

Section CreateExtras.
Context {Payload : Type}.
Implicit Types (w : world Payload) (h : loc -> MicroVMSpec.t Payload)
  (l spec : loc) (uid : string).

(** A create panics exactly when the generator gave an identifier and the
    request carries no spec message; when the generator fails, the error
    comes back even for such a request. *)
Theorem CreateMicroVM_panics_iff w NewV4 req (p : panic) :
  CreateMicroVM NewV4 req w = Panicked p <->
  p = nil_pointer_dereference /\
  (exists uid, NewV4 = inl uid) /\
  CreateMicroVMRequest.Microvm req = None.
Proof.
  destruct NewV4 as [uid|err], req as [[spec|]].
  - rewrite CreateMicroVM_generated. split; [done | by intros (_ & _ & ?)].
  - rewrite CreateMicroVM_without_spec. split.
    + intros [= <-]. eauto.
    + by intros (-> & _ & _).
  - rewrite CreateMicroVM_failed. split; [done | by intros (_ & [? ?] & _)].
  - rewrite CreateMicroVM_failed. split; [done | by intros (_ & [? ?] & _)].
Qed.

Lemma world_created_has_uids w spec uid :
  forallb (has_uid (heap w)) (savedSpecs (server w)) = true ->
  forallb (has_uid (heap (world_created w spec uid)))
    (savedSpecs (server (world_created w spec uid))) = true.
Proof.
  intros Hall. cbn [world_created heap server savedSpecs].
  rewrite forallb_app. cbn [forallb]. apply andb_true_intro. split.
  - apply forallb_forall. intros l Hl. apply heap_with_Uid_has_uid.
    rewrite forallb_forall in Hall. by apply Hall.
  - unfold has_uid. by rewrite heap_with_Uid_same.
Qed.

Lemma handle_keeps_uids w (c : call) w' :
  forallb (has_uid (heap w)) (savedSpecs (server w)) = true ->
  handle c w = Done tt w' ->
  forallb (has_uid (heap w')) (savedSpecs (server w')) = true.
Proof.
  intros Hall. destruct c as [NewV4 req|req|req|req]; cbn [handle]; unfold bind.
  - destruct NewV4 as [uid|err], req as [[spec|]].
    + rewrite CreateMicroVM_generated. intros [= <-].
      by apply world_created_has_uids.
    + by rewrite CreateMicroVM_without_spec.
    + rewrite CreateMicroVM_failed. by intros [= <-].
    + rewrite CreateMicroVM_failed. by intros [= <-].
  - destruct req as [uid], w as [h [specs] out]. cbn [heap server savedSpecs] in *.
    rewrite DeleteMicroVM_eq. destruct (last specs) as [z|] eqn:Hlast.
    + rewrite Hall. intros [= <-]. cbn [heap server savedSpecs].
      apply forallb_forall. intros l (i & Hi & _)%list_elem_of_In%elem_of_take.
      apply list_elem_of_lookup_2, list_elem_of_In, in_map_iff in Hi
        as (x & <- & Hx).
      rewrite forallb_forall in Hall. unfold overwritten.
      destruct (uid_matches h uid x); apply Hall; [|done].
      apply list_elem_of_In. rewrite last_lookup in Hlast.
      by eapply list_elem_of_lookup_2.
    + by intros [= <-].
  - destruct req as [uid]. rewrite GetMicroVM_eq, Hall.
    by destruct (last_match _ _ _ _); intros [= <-].
  - destruct req as [[n|] namespace].
    + rewrite ListMicroVMs_named. by intros [= <-].
    + rewrite ListMicroVMs_unnamed. destruct (existsb _ _); [done|].
      by intros [= <-].
Qed.

(** A server driven through its handlers alone, from a fresh start: after
    any run of calls that did not panic, every stored record carries a
    uid, so the next get returns, found or not found, and the next delete
    returns success. *)
Theorem serve_keeps_uids (calls : list call) h out w :
  serve calls {| heap := h; server := New; stdout := out |} = Done tt w ->
  forallb (has_uid (heap w)) (savedSpecs (server w)) = true /\
  (forall req, exists r w', GetMicroVM req w = Done r w') /\
  (forall req, exists w', DeleteMicroVM req w = Done (inl emptypb_Empty) w').
Proof.
  assert (forall cs w0 w1,
             forallb (has_uid (heap w0)) (savedSpecs (server w0)) = true ->
             serve cs w0 = Done tt w1 ->
             forallb (has_uid (heap w1)) (savedSpecs (server w1)) = true) as Hrun.
  { induction cs as [|c cs IH]; intros w0 w1 Hall.
    - by intros [= <-].
    - cbn [serve]. unfold bind. destruct (handle c w0) as [[] w0'|] eqn:Hc; [|done].
      apply IH. by eapply handle_keeps_uids. }
  intros Hserve. apply Hrun in Hserve as Hall; [|done]. split; [done|]. split.
  - intros [uid]. rewrite GetMicroVM_eq, Hall.
    destruct (last_match _ _ _ _); eauto.
  - intros [uid]. destruct w as [h' [specs] out']. cbn [heap server savedSpecs] in *.
    rewrite DeleteMicroVM_eq, Hall. destruct (last specs); eauto.
Qed.
End CreateExtras.

(** Two creates and a delete from a fresh server, then a get. *)
Lemma serve_keeps_uids_witness :
  exists r w',
    GetMicroVM {| GetMicroVMRequest.Uid := "uid-a" |}
      {| heap := heap_with_Uid (heap_with_Uid sample_heap 4 "uid-a") 5 "uid-b";
         server := {| savedSpecs := [4] |};
         stdout := ["microvm created: vm4"; "microvm created: vm4"] |}
    = Done r w'.
Proof.
  apply (serve_keeps_uids
           [ call_CreateMicroVM (inl "uid-a")
               {| CreateMicroVMRequest.Microvm := Some 4 |};
             call_CreateMicroVM (inl "uid-b")
               {| CreateMicroVMRequest.Microvm := Some 5 |};
             call_DeleteMicroVM {| DeleteMicroVMRequest.Uid := "uid-9" |} ]
           sample_heap []).
  reflexivity.
Defined.

(** ** More about the auth gate *)

Lemma string_ind3 (P : string -> Prop) :
  P EmptyString ->
  (forall a, P (String a EmptyString)) ->
  (forall a b, P (String a (String b EmptyString))) ->
  (forall a b c s, P s -> P (String a (String b (String c s)))) ->
  forall s, P s.
Proof.
  intros H0 H1 H2 H3. fix IH 1.
  intros [|a [|b [|c s]]]; [exact H0 | apply H1 | apply H2 | apply H3, IH].
Qed.

Lemma EncodeToString_group (a b c : ascii) (s : string) :
  EncodeToString (String a (String b (String c s)))
  = String (enc (N.lor (N.lor (N.shiftl (N_of_ascii a) 16) (N.shiftl (N_of_ascii b) 8))
                       (N_of_ascii c)) 18)
      (String (enc (N.lor (N.lor (N.shiftl (N_of_ascii a) 16) (N.shiftl (N_of_ascii b) 8))
                          (N_of_ascii c)) 12)
         (String (enc (N.lor (N.lor (N.shiftl (N_of_ascii a) 16)
                                    (N.shiftl (N_of_ascii b) 8))
                             (N_of_ascii c)) 6)
            (String (enc (N.lor (N.lor (N.shiftl (N_of_ascii a) 16)
                                       (N.shiftl (N_of_ascii b) 8))
                                (N_of_ascii c)) 0)
               (EncodeToString s)))).
Proof. reflexivity. Qed.

(** The text the encoder makes of [n] bytes is [4 * ceil (n / 3)]
    characters long. *)
Lemma EncodeToString_length (src : string) :
  String.length (EncodeToString src) = 4 * ((String.length src + 2) / 3).
Proof.
  induction src as [|a|a b|a b c s IH] using string_ind3; try reflexivity.
  rewrite EncodeToString_group. cbn [String.length]. rewrite IH.
  replace (S (S (S (String.length s))) + 2) with ((String.length s + 2) + 1 * 3) by lia.
  rewrite Nat.div_add by lia. lia.
Qed.

Lemma EncodeToString_longer (src : string) :
  src <> "" -> String.length src < String.length (EncodeToString src).
Proof.
  intros Hne. rewrite EncodeToString_length.
  assert (1 <= String.length src) by (destruct src; [done | simpl; lia]).
  pose proof (Nat.div_mod (String.length src + 2) 3 ltac:(lia)) as Hdm.
  pose proof (Nat.mod_upper_bound (String.length src + 2) 3 ltac:(lia)).
  lia.
Qed.

(** A caller who sends the secret as it is, not its base64 text, is
    turned away, whatever the secret. *)
Theorem validateBasicAuthToken_raw_secret (serverToken : string) :
  serverToken <> "" ->
  validateBasicAuthToken serverToken serverToken
  = Some (errors_New "tokens do not match").
Proof.
  intros Hne. apply validateBasicAuthToken_error. intros Heq.
  pose proof (EncodeToString_longer serverToken Hne) as Hlen.
  rewrite <- Heq in Hlen. lia.
Qed.

Lemma validateBasicAuthToken_raw_secret_witness :
  validateBasicAuthToken "secret" "secret" = Some (errors_New "tokens do not match").
Proof. apply (validateBasicAuthToken_raw_secret "secret"). discriminate. Defined.

(** A credential that passes the check is four characters for every three
    bytes of the secret, the last group rounded up: no other length gets
    through. *)
Theorem validateBasicAuthToken_token_length (clientToken serverToken : string) :
  validateBasicAuthToken clientToken serverToken = None ->
  String.length clientToken = 4 * ((String.length serverToken + 2) / 3).
Proof.
  intros ->%validateBasicAuthToken_nil. apply EncodeToString_length.
Qed.

Lemma validateBasicAuthToken_token_length_witness :
  String.length "c2VjcmV0cw==" = 4 * ((String.length "secrets" + 2) / 3).
Proof.
  apply (validateBasicAuthToken_token_length "c2VjcmV0cw==" "secrets"). reflexivity.
Defined.

(** *** The encoder maps different secrets to different texts *)

Lemma lor_add_pow2 (a c n : N) :
  (c < 2 ^ n)%N -> N.lor (a * 2 ^ n) c = (a * 2 ^ n + c)%N.
Proof.
  intros Hc.
  assert (N.land (a * 2 ^ n) c = 0%N) as Hland.
  { apply N.bits_inj. intros m. rewrite N.land_spec, N.bits_0.
    destruct (N.ltb_spec m n) as [Hlt|Hge].
    - by rewrite N.mul_pow2_bits_low.
    - destruct (N.eq_dec c 0%N) as [->|Hc0]; [by rewrite N.bits_0, andb_false_r|].
      rewrite (N.bits_above_log2 c m), andb_false_r; [done|].
      apply N.lt_le_trans with n; [|done].
      apply N.log2_lt_pow2; [lia | done]. }
  by rewrite <- N.lxor_lor, <- N.add_nocarry_lxor.
Qed.

Lemma group_value (x y z : N) :
  (y < 256)%N -> (z < 256)%N ->
  N.lor (N.lor (N.shiftl x 16) (N.shiftl y 8)) z = (x * 65536 + y * 256 + z)%N.
Proof.
  intros Hy Hz. rewrite !N.shiftl_mul_pow2.
  rewrite (lor_add_pow2 x (y * 2 ^ 8) 16) by (change (2 ^ 16)%N with 65536%N; change (2 ^ 8)%N with 256%N; lia).
  change (2 ^ 16)%N with 65536%N. change (2 ^ 8)%N with 256%N.
  replace (x * 65536 + y * 256)%N with ((x * 256 + y) * 2 ^ 8)%N
    by (change (2 ^ 8)%N with 256%N; lia).
  rewrite lor_add_pow2 by (change (2 ^ 8)%N with 256%N; lia).
  change (2 ^ 8)%N with 256%N. lia.
Qed.

Lemma alphabet_index (n : nat) :
  n < 64 ->
  index_of (default "="%char (String.get n encodeStd)) encodeStd = Some n.
Proof.
  intros Hn.
  assert (forallb (fun i =>
            match index_of (default "="%char (String.get i encodeStd)) encodeStd with
            | Some j => Nat.eqb j i
            | None => false
            end) (seq 0 64) = true) as Hall by (vm_compute; reflexivity).
  rewrite forallb_forall in Hall. specialize (Hall n).
  destruct (index_of _ _) as [j|].
  - f_equal. apply Nat.eqb_eq, Hall, in_seq. lia.
  - discriminate Hall. apply in_seq. lia.
Qed.

Lemma sextet_bound (val k : N) : N.to_nat (N.land (N.shiftr val k) 63) < 64.
Proof.
  change 63%N with (N.ones 6). rewrite N.land_ones.
  pose proof (N.mod_upper_bound (N.shiftr val k) (2 ^ 6) ltac:(done)) as H.
  change (2 ^ 6)%N with 64%N in *. lia.
Qed.

Lemma enc_index (val k : N) :
  index_of (enc val k) encodeStd = Some (N.to_nat (N.land (N.shiftr val k) 63)).
Proof. unfold enc. apply alphabet_index, sextet_bound. Qed.

Lemma enc_not_padding (val k : N) : enc val k <> "="%char.
Proof.
  intros Heq. pose proof (enc_index val k) as Hi. rewrite Heq in Hi. discriminate Hi.
Qed.

Lemma enc_sextet (val val' k : N) :
  enc val k = enc val' k ->
  ((val / 2 ^ k) mod 64 = (val' / 2 ^ k) mod 64)%N.
Proof.
  intros Heq. pose proof (enc_index val k) as Hi. rewrite Heq, enc_index in Hi.
  injection Hi as Hi. apply N2Nat.inj in Hi.
  change 63%N with (N.ones 6) in Hi. rewrite !N.land_ones, !N.shiftr_div_pow2 in Hi.
  by change (2 ^ 6)%N with 64%N in Hi.
Qed.

Lemma N_of_ascii_inj (a a' : ascii) : N_of_ascii a = N_of_ascii a' -> a = a'.
Proof.
  intros Heq. rewrite <- (ascii_N_embedding a), <- (ascii_N_embedding a').
  by rewrite Heq.
Qed.

Lemma sextets_inj (val val' : N) :
  (val < 16777216)%N -> (val' < 16777216)%N ->
  ((val / 262144) mod 64 = (val' / 262144) mod 64)%N ->
  ((val / 4096) mod 64 = (val' / 4096) mod 64)%N ->
  ((val / 64) mod 64 = (val' / 64) mod 64)%N ->
  (val mod 64 = val' mod 64)%N ->
  val = val'.
Proof.
  intros Hv Hv' H18 H12 H6 Hlow.
  rewrite (N.div_mod val 64), (N.div_mod val' 64) by done. rewrite Hlow. f_equal. f_equal.
  assert (val / 64 < 262144)%N by (apply N.Div0.div_lt_upper_bound; lia).
  assert (val' / 64 < 262144)%N by (apply N.Div0.div_lt_upper_bound; lia).
  rewrite (N.div_mod (val / 64) 64), (N.div_mod (val' / 64) 64) by done.
  rewrite H6. f_equal. f_equal. rewrite !N.Div0.div_div.
  change (64 * 64)%N with 4096%N.
  assert (val / 4096 < 4096)%N by (apply N.Div0.div_lt_upper_bound; lia).
  assert (val' / 4096 < 4096)%N by (apply N.Div0.div_lt_upper_bound; lia).
  rewrite (N.div_mod (val / 4096) 64), (N.div_mod (val' / 4096) 64) by done.
  rewrite H12. f_equal. f_equal. rewrite !N.Div0.div_div.
  change (4096 * 64)%N with 262144%N.
  assert (val / 262144 < 64)%N by (apply N.Div0.div_lt_upper_bound; lia).
  assert (val' / 262144 < 64)%N by (apply N.Div0.div_lt_upper_bound; lia).
  rewrite <- (N.mod_small (val / 262144) 64), <- (N.mod_small (val' / 262144) 64) by done.
  done.
Qed.

Lemma group3_inj (a b c a' b' c' : ascii) :
  let val := N.lor (N.lor (N.shiftl (N_of_ascii a) 16) (N.shiftl (N_of_ascii b) 8))
                   (N_of_ascii c) in
  let val' := N.lor (N.lor (N.shiftl (N_of_ascii a') 16) (N.shiftl (N_of_ascii b') 8))
                    (N_of_ascii c') in
  enc val 18 = enc val' 18 -> enc val 12 = enc val' 12 ->
  enc val 6 = enc val' 6 -> enc val 0 = enc val' 0 ->
  a = a' /\ b = b' /\ c = c'.
Proof.
  intros val val'. subst val val'.
  pose proof (N_ascii_bounded a). pose proof (N_ascii_bounded b).
  pose proof (N_ascii_bounded c). pose proof (N_ascii_bounded a').
  pose proof (N_ascii_bounded b'). pose proof (N_ascii_bounded c').
  rewrite !group_value by done.
  intros H18%enc_sextet H12%enc_sextet H6%enc_sextet Hlow%enc_sextet.
  change (2 ^ 18)%N with 262144%N in H18. change (2 ^ 12)%N with 4096%N in H12.
  change (2 ^ 6)%N with 64%N in H6. change (2 ^ 0)%N with 1%N in Hlow.
  rewrite !N.div_1_r in Hlow.
  lazymatch type of Hlow with
  | (?v mod 64 = ?v' mod 64)%N =>
      assert (v = v') as Hval by (apply sextets_inj; (lia || done))
  end.
  repeat split; apply N_of_ascii_inj; lia.
Qed.

Lemma group2_inj (a b a' b' : ascii) :
  let val := N.lor (N.shiftl (N_of_ascii a) 16) (N.shiftl (N_of_ascii b) 8) in
  let val' := N.lor (N.shiftl (N_of_ascii a') 16) (N.shiftl (N_of_ascii b') 8) in
  enc val 18 = enc val' 18 -> enc val 12 = enc val' 12 -> enc val 6 = enc val' 6 ->
  a = a' /\ b = b'.
Proof.
  intros val val'. subst val val'.
  pose proof (N_ascii_bounded a). pose proof (N_ascii_bounded b).
  pose proof (N_ascii_bounded a'). pose proof (N_ascii_bounded b').
  rewrite <- (N.lor_0_r (N.lor (N.shiftl (N_of_ascii a) 16) _)).
  rewrite <- (N.lor_0_r (N.lor (N.shiftl (N_of_ascii a') 16) _)).
  rewrite !group_value by (done || lia).
  intros H18%enc_sextet H12%enc_sextet H6%enc_sextet.
  change (2 ^ 18)%N with 262144%N in H18. change (2 ^ 12)%N with 4096%N in H12.
  change (2 ^ 6)%N with 64%N in H6.
  assert (forall x y : N, ((x * 65536 + y * 256 + 0) mod 64 = 0)%N) as Hlow.
  { intros x y. replace (x * 65536 + y * 256 + 0)%N with ((x * 1024 + y * 4) * 64)%N by lia.
    apply N.Div0.mod_mul. }
  lazymatch type of H6 with
  | ((?v / 64) mod 64 = (?v' / 64) mod 64)%N =>
      assert (v = v') as Hval
        by (apply sextets_inj; (lia || done || by rewrite !Hlow))
  end.
  split; apply N_of_ascii_inj; lia.
Qed.

Lemma group1_inj (a a' : ascii) :
  enc (N.shiftl (N_of_ascii a) 16) 18 = enc (N.shiftl (N_of_ascii a') 16) 18 ->
  enc (N.shiftl (N_of_ascii a) 16) 12 = enc (N.shiftl (N_of_ascii a') 16) 12 ->
  a = a'.
Proof.
  pose proof (N_ascii_bounded a). pose proof (N_ascii_bounded a').
  rewrite !N.shiftl_mul_pow2.
  intros H18%enc_sextet H12%enc_sextet.
  change (2 ^ 18)%N with 262144%N in H18. change (2 ^ 12)%N with 4096%N in H12.
  change (2 ^ 16)%N with 65536%N in *.
  assert (forall x : N, ((x * 65536 / 64) mod 64 = 0)%N) as Hmid.
  { intros x. replace (x * 65536)%N with (x * 1024 * 64)%N by lia.
    rewrite N.div_mul by done. replace (x * 1024)%N with (x * 16 * 64)%N by lia.
    apply N.Div0.mod_mul. }
  assert (forall x : N, ((x * 65536) mod 64 = 0)%N) as Hlow.
  { intros x. replace (x * 65536)%N with (x * 1024 * 64)%N by lia.
    apply N.Div0.mod_mul. }
  lazymatch type of H12 with
  | ((?v / 4096) mod 64 = (?v' / 4096) mod 64)%N =>
      assert (v = v') as Hval
        by (apply sextets_inj;
            (lia || done || (by rewrite !Hmid) || by rewrite !Hlow))
  end.
  apply N_of_ascii_inj; lia.
Qed.

Lemma EncodeToString_inj (s t : string) :
  EncodeToString s = EncodeToString t -> s = t.
Proof.
  revert t. induction s as [|a|a b|a b c s IH] using string_ind3;
    intros [|a' [|b' [|c' t]]]; try rewrite !EncodeToString_group;
    cbn [EncodeToString]; cbv zeta; intros Heq; try discriminate Heq.
  - done.
  - injection Heq as H18 H12. by rewrite (group1_inj a a').
  - injection Heq as _ _ Hpad. by apply eq_sym, enc_not_padding in Hpad.
  - injection Heq as _ _ Hpad _. by apply eq_sym, enc_not_padding in Hpad.
  - injection Heq as _ _ Hpad. by apply enc_not_padding in Hpad.
  - injection Heq as H18 H12 H6.
    by destruct (group2_inj a b a' b' H18 H12 H6) as [-> ->].
  - injection Heq as _ _ _ Hpad _. by apply eq_sym, enc_not_padding in Hpad.
  - injection Heq as _ _ Hpad _. by apply enc_not_padding in Hpad.
  - injection Heq as _ _ _ Hpad _. by apply enc_not_padding in Hpad.
  - injection Heq as H18 H12 H6 Hlow Hrest.
    destruct (group3_inj a b c a' b' c' H18 H12 H6 Hlow) as (-> & -> & ->).
    by rewrite (IH t Hrest).
Qed.

(** One credential opens the gate of one secret only: a token that the
    check accepts for two server secrets shows them to be the same. *)
Theorem validateBasicAuthToken_one_secret (clientToken secret1 secret2 : string) :
  validateBasicAuthToken clientToken secret1 = None ->
  validateBasicAuthToken clientToken secret2 = None ->
  secret1 = secret2.
Proof.
  intros H1%validateBasicAuthToken_nil H2%validateBasicAuthToken_nil.
  apply EncodeToString_inj. congruence.
Qed.

Lemma validateBasicAuthToken_one_secret_witness : "secret" = "secret".
Proof.
  apply (validateBasicAuthToken_one_secret "c2VjcmV0" "secret" "secret");
    reflexivity.
Defined.

(** ** One more fact about DeleteMicroVM *)

Section DeleteDuplicates.
Context {Payload : Type}.
Implicit Types (h : loc -> MicroVMSpec.t Payload) (l z : loc) (uid : string)
  (specs : list loc).

(** However many records carry the uid, a delete leaves none of them
    behind when the last record of the collection is not one of them. *)
Theorem DeleteMicroVM_clears_uid_unless_last h uid specs z out :
  forallb (has_uid h) (specs ++ [z]) = true ->
  MicroVMSpec.Uid (h z) <> Some uid ->
  exists w',
    DeleteMicroVM {| DeleteMicroVMRequest.Uid := uid |}
      {| heap := h; server := {| savedSpecs := specs ++ [z] |}; stdout := out |}
    = Done (inl emptypb_Empty) w' /\
    heap w' = h /\
    forall l, In l (savedSpecs (server w')) -> MicroVMSpec.Uid (h l) <> Some uid.
Proof.
  intros Hall Hz. rewrite DeleteMicroVM_eq, last_snoc, Hall.
  eexists. split; [reflexivity|]. cbn [heap server savedSpecs]. split; [done|].
  intros l (i & Hi & _)%list_elem_of_In%elem_of_take.
  apply list_elem_of_lookup_2, list_elem_of_In, in_map_iff in Hi as (x & <- & _).
  unfold overwritten. destruct (uid_matches h uid x) eqn:Hx; [done|].
  intros Hu%uid_matches_true. congruence.
Qed.
End DeleteDuplicates.

(** vm0 and vm2 share a uid and vm1, the last, has another: the delete
    leaves no record with the shared uid. *)
Lemma DeleteMicroVM_clears_uid_unless_last_witness :
  exists w',
    DeleteMicroVM {| DeleteMicroVMRequest.Uid := "uid-0" |} (sample_world [0; 2; 1] [])
    = Done (inl emptypb_Empty) w' /\
    heap w' = sample_heap /\
    forall l, In l (savedSpecs (server w')) ->
              MicroVMSpec.Uid (sample_heap l) <> Some "uid-0".
Proof.
  apply (DeleteMicroVM_clears_uid_unless_last sample_heap "uid-0" [0; 2] 1 []).
  - reflexivity.
  - discriminate.
Defined.
